(** * HDR night mode: a shallow embedding of [main.py]

    The script brightens one photograph into a stack of synthetic
    exposures, fuses them (Mertens), tone-maps the fused composite to
    8 bits, denoises and enhances contrast.  The author-written code is
    array arithmetic ([np.clip], [astype]), a loop and the sequencing of
    OpenCV calls.  Floating point is IEEE 754 as specified by the standard
    library's [SpecFloat]: binary64 for Python floats and for a [uint8]
    array multiplied by a Python float, binary32 for the fused composite. *)

From Stdlib Require Import ZArith Lia List Bool.
From Stdlib Require Import Floats.SpecFloat.
From stdpp Require Import gmap strings.

Open Scope Z_scope.

(** ** Floating-point formats *)

Module F64.
Definition prec : Z := 53.
Definition emax : Z := 1024.
Definition mul : spec_float -> spec_float -> spec_float := SFmul prec emax.
Definition add : spec_float -> spec_float -> spec_float := SFadd prec emax.
(** Conversion of a Python [int] (or of a [uint8] array element) to a
    Python [float]: correctly rounded, ties to even.  CPython raises
    [OverflowError] for integers of 2^1024 and above; no loop index of
    [generate_exposure_images] gets there, since the list of the earlier
    images would have to be held first, so the conversion is the
    rounding alone. *)
Definition of_Z (z : Z) : spec_float := binary_normalize prec emax z 0 false.
Definition valid (x : spec_float) : bool := valid_binary prec emax x.
End F64.

Module F32.
Definition prec : Z := 24.
Definition emax : Z := 128.
Definition mul : spec_float -> spec_float -> spec_float := SFmul prec emax.
Definition of_Z (z : Z) : spec_float := binary_normalize prec emax z 0 false.
Definition valid (x : spec_float) : bool := valid_binary prec emax x.
End F32.

(** ** numpy element operations *)

Definition is_nan (x : spec_float) : bool :=
  match x with S754_nan => true | _ => false end.

(** [np.clip(a, lo, hi)] on a floating array is
    [minimum(maximum(a, lo), hi)] with NaN passed through: numpy's loop is
    [isnan(x) ? x : (x > lo ? x : lo)] followed by
    [isnan(t) ? t : (t < hi ? t : hi)]. *)
Definition np_max (x lo : spec_float) : spec_float :=
  if is_nan x then x else if SFltb lo x then x else lo.

Definition np_min (x hi : spec_float) : spec_float :=
  if is_nan x then x else if SFltb x hi then x else hi.

Definition np_clip (x lo hi : spec_float) : spec_float :=
  np_min (np_max x lo) hi.

(** Integer part of [m * 2^e], for [m >= 0]. *)
Definition trunc_me (m e : Z) : Z :=
  if 0 <=? e then m * 2 ^ e else m / 2 ^ (- e).

(** The C conversion of a float to an integer truncates toward zero; it
    is defined on numbers only. *)
Definition SFtrunc (x : spec_float) : option Z :=
  match x with
  | S754_zero _ => Some 0
  | S754_finite s m e => Some (cond_Zopp s (trunc_me (Zpos m) e))
  | S754_infinity _ | S754_nan => None
  end.

(** [a.astype(np.uint8)] on a floating array: the truncated value is kept
    modulo 256 (the low byte, which is where a wrap-around would show);
    NaN and the infinities have no integer part and come out as 0, as
    they do on x86-64 and AArch64. *)
Definition astype_uint8 (x : spec_float) : Z :=
  match SFtrunc x with
  | Some z => z mod 256
  | None => 0
  end.

(** ** Arrays *)

(** A pixel has three channels (B, G, R after [cv2.imread]). *)
Definition pixel (A : Type) : Type := (A * A * A)%type.

(** An [H x W x 3] array: rows of pixels. *)
Definition ndarray (A : Type) : Type := list (list (pixel A)).

(** A single-channel [H x W] array. *)
Definition plane (A : Type) : Type := list (list A).

(** 8-bit images hold integers; [is_uint8] is the range of the element
    type. *)
Definition image : Type := ndarray Z.

Definition is_uint8 (v : Z) : Prop := 0 <= v <= 255.

Definition pxmap {A B : Type} (f : A -> B) (p : pixel A) : pixel B :=
  let '(b, g, r) := p in (f b, f g, f r).

(** Element-wise application of [f] (numpy broadcasting of a scalar
    operation over an array). *)
Definition ndmap {A B : Type} (f : A -> B) (a : ndarray A) : ndarray B :=
  map (map (pxmap f)) a.

Definition px_all {A : Type} (P : A -> Prop) (p : pixel A) : Prop :=
  let '(b, g, r) := p in P b /\ P g /\ P r.

Definition nd_all {A : Type} (P : A -> Prop) (a : ndarray A) : Prop :=
  Forall (Forall (px_all P)) a.

Definition px_rel {A B : Type} (R : A -> B -> Prop) (p : pixel A) (q : pixel B) : Prop :=
  let '(b, g, r) := p in let '(b', g', r') := q in R b b' /\ R g g' /\ R r r'.

(** Pixel-wise, channel-wise relation between two arrays of one shape. *)
Definition nd_rel {A B : Type} (R : A -> B -> Prop) (a : ndarray A) (b : ndarray B) : Prop :=
  Forall2 (Forall2 (px_rel R)) a b.

Definition valid_image (img : image) : Prop := nd_all is_uint8 img.

Definition shape {A : Type} (p : list (list A)) : list nat := map length p.

(** ** [increase_exposure] (lines 49-60) *)

(** [image * factor]: a [uint8] array times a Python float is a float64
    array, each element converted exactly and multiplied. *)
Definition np_mul_f64 (img : image) (factor : spec_float) : ndarray spec_float :=
  ndmap (fun v => F64.mul (F64.of_Z v) factor) img.

Definition increase_exposure (img : image) (factor : spec_float) : image :=
  ndmap astype_uint8
    (ndmap (fun x => np_clip x (F64.of_Z 0) (F64.of_Z 255))
       (np_mul_f64 img factor)).

(** ** [generate_exposure_images] (lines 94-110) *)

(** [range(lo, hi)] *)
Definition py_range (lo hi : Z) : list Z :=
  map (fun k => lo + Z.of_nat k) (seq 0 (Z.to_nat (hi - lo))).

(** [1 + i * exposure_step] with [i] an [int] and the step a [float] *)
Definition exposure_factor (i : Z) (exposure_step : spec_float) : spec_float :=
  F64.add (F64.of_Z 1) (F64.mul (F64.of_Z i) exposure_step).

(** The loop appends one image per index to the list [images]. *)
Definition generate_exposure_images
    (img : image) (num_images : Z) (exposure_step : spec_float) : list image :=
  fold_left
    (fun images i => images ++ [increase_exposure img (exposure_factor i exposure_step)])
    (py_range 1 (num_images + 1))
    [].

Definition default_num_images : Z := 30.

(** The Python literal [0.1] as a binary64 number. *)
Definition default_exposure_step : spec_float :=
  S754_finite false 7205759403792794 (-56).

(** ** The OpenCV interface

    OpenCV is not part of the repository; the script's calls are the
    fields of this record.  A call that raises [cv2.error] returns [None]. *)

(** What [cv2.imwrite(path, img)] does: it writes the encoded bytes and
    returns [True], or writes nothing and returns [False] (the file cannot
    be opened), or raises [cv2.error] (no encoder for the extension of the
    file name). *)
Inductive imwrite_outcome : Type :=
| Written (bytes : list Byte.byte)
| NotWritten
| NoEncoder.

Record cv2 : Type := {
  (** the decoder behind [cv2.imread]: [None] when the bytes are not an
      image it can decode *)
  imdecode : list Byte.byte -> option image;
  (** the encoder behind [cv2.imwrite], chosen by the file name, and what
      becomes of the write *)
  imencode : string -> image -> imwrite_outcome;
  (** [cv2.createMergeMertens().process]: a float32 composite *)
  MergeMertens_process : list image -> option (ndarray spec_float);
  (** [cv2.fastNlMeansDenoisingColored(src, None, h, hColor,
      templateWindowSize, searchWindowSize)] *)
  fastNlMeansDenoisingColored : image -> Z -> Z -> Z -> Z -> image;
  cvtColor_BGR2LAB : image -> image;
  cvtColor_LAB2BGR : image -> image;
  (** [cv2.createCLAHE(clipLimit, tileGridSize).apply] *)
  CLAHE_apply : spec_float -> Z * Z -> plane Z -> plane Z;
}.

(** [cv2.split]: the three channel planes. *)
Definition cv2_split {A : Type} (a : ndarray A) : plane A * plane A * plane A :=
  (map (map (fun p : pixel A => fst (fst p))) a,
   map (map (fun p : pixel A => snd (fst p))) a,
   map (map (fun p : pixel A => snd p)) a).

Fixpoint zip3 {A : Type} (l a b : list A) : list (pixel A) :=
  match l, a, b with
  | x :: l', y :: a', z :: b' => (x, y, z) :: zip3 l' a' b'
  | _, _, _ => []
  end.

Fixpoint zip3_rows {A : Type} (l a b : plane A) : ndarray A :=
  match l, a, b with
  | x :: l', y :: a', z :: b' => zip3 x y z :: zip3_rows l' a' b'
  | _, _, _ => []
  end.

(** [cv2.merge] of three planes: OpenCV raises [cv2.error] unless all of
    them have one size. *)
Definition cv2_merge (l a b : plane Z) : option image :=
  if bool_decide (shape l = shape a /\ shape l = shape b)
  then Some (zip3_rows l a b)
  else None.

(** ** The world: files and standard output *)

Inductive exn : Type :=
| FileNotFoundError (msg : string)
| cv2_error.

Inductive res (A : Type) : Type :=
| Ok (a : A)
| Raise (e : exn).
Arguments Ok {A} a.
Arguments Raise {A} e.

Record world : Type := {
  disk : gmap string (list Byte.byte);
  stdout : list string;
}.

(** Computations that read and write the world and may raise. *)
Definition M (A : Type) : Type := world -> res A * world.

Definition ret {A : Type} (a : A) : M A := fun w => (Ok a, w).

Definition bind {A B : Type} (m : M A) (k : A -> M B) : M B :=
  fun w =>
    match m w with
    | (Ok a, w') => k a w'
    | (Raise e, w') => (Raise e, w')
    end.

Definition raise {A : Type} (e : exn) : M A := fun w => (Raise e, w).

(** A library call that either returns or raises [cv2.error]. *)
Definition lift_cv2 {A : Type} (o : option A) : M A :=
  match o with
  | Some a => ret a
  | None => raise cv2_error
  end.

(** [try: body  except FileNotFoundError as e: handler(e)] *)
Definition try_except_FileNotFoundError {A : Type}
    (body : M A) (handler : string -> M A) : M A :=
  fun w =>
    match body w with
    | (Raise (FileNotFoundError msg), w') => handler msg w'
    | r => r
    end.

Global Instance M_ret : MRet M := @ret.
Global Instance M_bind : MBind M := fun A B k m => bind m k.

(** The two effects of the script on the world. *)
Definition print_line (msg : string) (w : world) : world :=
  {| disk := disk w; stdout := stdout w ++ [msg] |}.

Definition write_file (path : string) (bytes : list Byte.byte) (w : world) : world :=
  {| disk := <[path := bytes]> (disk w); stdout := stdout w |}.

(** [print(e)] *)
Definition py_print (msg : string) : M unit :=
  fun w => (Ok tt, print_line msg w).

(** Truth value of an [Optional[str]]: [None] and the empty string are
    false. *)
Definition py_truthy (o : option string) : bool :=
  match o with
  | Some s => negb (String.eqb s "")
  | None => false
  end.

Section Pipeline.

Context (cv : cv2).

(** [cv2.imread(path)]: [None] when the file is missing or cannot be
    decoded. *)
Definition cv2_imread (path : string) : M (option image) :=
  fun w => (Ok (disk w !! path ≫= imdecode cv), w).

(** [cv2.imwrite(path, img)] *)
Definition cv2_imwrite (path : string) (img : image) : M bool :=
  fun w =>
    match imencode cv path img with
    | Written bytes => (Ok true, write_file path bytes w)
    | NotWritten => (Ok false, w)
    | NoEncoder => (Raise cv2_error, w)
    end.

(** lines 5-21 *)
Definition load_image (image_path : string) : M image :=
  img ← cv2_imread image_path;
  match img with
  | None => raise (FileNotFoundError ("Error: Could not load image from " +:+ image_path))
  | Some img => mret img
  end.

(** lines 24-32 *)
Definition save_image (img : image) (output_path : string) : M unit :=
  cv2_imwrite output_path img;; mret tt.

(** lines 63-73 *)
Definition noise_reduction (img : image) : image :=
  fastNlMeansDenoisingColored cv img 10 10 7 21.

(** lines 86-90: the LAB image handed to the final conversion *)
Definition contrast_enhancement_lab (img : image) : option image :=
  let lab := cvtColor_BGR2LAB cv img in
  let '(l, a, b) := cv2_split lab in
  let l_clahe := CLAHE_apply cv (F64.of_Z 2) (8, 8) l in
  cv2_merge l_clahe a b.

(** lines 76-91 *)
Definition contrast_enhancement (img : image) : option image :=
  cvtColor_LAB2BGR cv <$> contrast_enhancement_lab img.

(** line 138: [np.clip(hdr_image * 255, 0, 255).astype(np.uint8)]; the
    composite is float32 and stays float32 when multiplied by the Python
    integer 255. *)
Definition tone_map (hdr_image : ndarray spec_float) : image :=
  ndmap astype_uint8
    (ndmap (fun x => np_clip x (F32.of_Z 0) (F32.of_Z 255))
       (ndmap (fun x => F32.mul x (F32.of_Z 255)) hdr_image)).

(** lines 113-154 *)
Definition hdr_night_mode
    (image_path : string) (num_images : Z) (exposure_step : spec_float)
    (output_path : option string) : M (option image) :=
  try_except_FileNotFoundError
    (img ← load_image image_path;
     let exposure_images := generate_exposure_images img num_images exposure_step in
     hdr_image ← lift_cv2 (MergeMertens_process cv exposure_images);
     let hdr_image_8bit := tone_map hdr_image in
     let denoised_image := noise_reduction hdr_image_8bit in
     final_image ← lift_cv2 (contrast_enhancement denoised_image);
     (if py_truthy output_path
      then save_image final_image (default "" output_path)
      else mret tt);;
     mret (Some final_image))
    (λ msg, py_print msg;; mret None).

(** lines 157-159: the script's only call *)
Definition script : M (option image) :=
  hdr_night_mode "Input Images/dark_image_4.jpg" default_num_images default_exposure_step
    (Some "Output Images/hdr_night_mode_result4.jpg").

End Pipeline.

(** ** The formulas of the specification

    [clamp(x, lo, hi)] and "truncated to integer", written from the
    specification's words, to be compared with [np_clip] and
    [astype_uint8]. *)

Definition spec_clamp (x lo hi : spec_float) : spec_float :=
  if SFltb x lo then lo else if SFltb hi x then hi else x.

(** The integer part, toward zero; what is not a number has none, and 0
    stands for it. *)
Definition spec_truncate (x : spec_float) : Z :=
  match SFtrunc x with
  | Some z => z
  | None => 0
  end.

(** The specification's exposure formula,
    [clamp(source * (1 + i*s), 0, 255)] truncated to integer, on one
    channel value, in the arithmetic of the program (binary64). *)
Definition spec_exposure (v i : Z) (s : spec_float) : Z :=
  spec_truncate
    (spec_clamp
       (F64.mul (F64.of_Z v) (F64.add (F64.of_Z 1) (F64.mul (F64.of_Z i) s)))
       (F64.of_Z 0) (F64.of_Z 255)).

(** The specification's tone mapping: scale by 255, clamp to [[0, 255]],
    truncate; on one value of the float32 composite. *)
Definition spec_tone (x : spec_float) : Z :=
  spec_truncate (spec_clamp (F32.mul x (F32.of_Z 255)) (F32.of_Z 0) (F32.of_Z 255)).

(** "Strictly brighter, or equal at saturation": the relation the
    specification states between a channel of image [i-1] and the same
    channel of image [i]. *)
Definition brighter_or_saturated (prev next : Z) : Prop :=
  prev < next \/ (prev = 255 /\ next = 255).

(** ** Auxiliary definitions *)

(** One channel value of [increase_exposure]: the three array passes
    composed. *)
Definition exposed (v : Z) (factor : spec_float) : Z :=
  astype_uint8 (np_clip (F64.mul (F64.of_Z v) factor) (F64.of_Z 0) (F64.of_Z 255)).

(** File names ending in [.jpg]. *)
Definition has_jpg_extension (path : string) : bool :=
  String.eqb (String.substring (String.length path - 4) 4 path) ".jpg".

(** A small stand-in for OpenCV, to run the pipeline on examples: every
    non-empty file decodes to one pixel, a [.jpg] name is written and any
    other name has no encoder, fusion returns 0.5 everywhere and refuses an
    empty stack, the filters and colour conversions are the identity. *)
Definition example_cv2 : cv2 := {|
  imdecode := fun bytes =>
    match bytes with [] => None | _ :: _ => Some [[(10, 20, 30)]] end;
  imencode := fun path _ =>
    if has_jpg_extension path then Written [Byte.x2a] else NoEncoder;
  MergeMertens_process := fun images =>
    match images with
    | [] => None
    | img :: _ => Some (ndmap (fun _ => S754_finite false 8388608 (-24)) img)
    end;
  fastNlMeansDenoisingColored := fun img _ _ _ _ => img;
  cvtColor_BGR2LAB := fun img => img;
  cvtColor_LAB2BGR := fun img => img;
  CLAHE_apply := fun _ _ l => l;
|}.

Definition example_world : world :=
  {| disk := {[ "dark.jpg" := [Byte.x01] ]}; stdout := [] |}.

(** Zero or a negative number (or minus infinity). *)
Definition is_nonpos (x : spec_float) : bool :=
  match x with
  | S754_zero _ | S754_finite true _ _ | S754_infinity true => true
  | _ => false
  end.

(** A number: neither an infinity nor NaN. *)
Definition is_finite (x : spec_float) : bool :=
  match x with
  | S754_zero _ | S754_finite _ _ _ => true
  | _ => false
  end.

(** One value of [tone_map]: the three array passes composed. *)
Definition toned (x : spec_float) : Z :=
  astype_uint8 (np_clip (F32.mul x (F32.of_Z 255)) (F32.of_Z 0) (F32.of_Z 255)).

(** The stand-in on a disk that takes no file: [cv2.imwrite] returns
    [False] for a [.jpg] name, as for a directory that does not exist. *)
Definition example_cv2_readonly : cv2 := {|
  imdecode := imdecode example_cv2;
  imencode := fun path _ =>
    if has_jpg_extension path then NotWritten else NoEncoder;
  MergeMertens_process := MergeMertens_process example_cv2;
  fastNlMeansDenoisingColored := fastNlMeansDenoisingColored example_cv2;
  cvtColor_BGR2LAB := cvtColor_BGR2LAB example_cv2;
  cvtColor_LAB2BGR := cvtColor_LAB2BGR example_cv2;
  CLAHE_apply := CLAHE_apply example_cv2;
|}.

(** ** Dyadic rounding: definitions used to characterise [SpecFloat] *)

(** Quotient of [m] by [2^n], rounded to nearest, ties to even. *)
Definition rne_shift (m n : Z) : Z :=
  let q := m / 2 ^ n in
  match 2 * (m mod 2 ^ n) ?= 2 ^ n with
  | Lt => q
  | Eq => if Z.even q then q else q + 1
  | Gt => q + 1
  end.

(** Mantissa and exponent of [m * 2^e] rounded to the format: what
    [binary_round_aux] computes on an exact input. *)
Definition round_me (prec emax m e : Z) : Z * Z :=
  let E := fexp prec emax (Zdigits2 m + e) in
  let q := rne_shift m (E - e) in
  if q =? 2 ^ prec then (2 ^ (prec - 1), E + 1) else (q, E).

(** The float of a rounded mantissa and exponent, with overflow to
    infinity. *)
Definition pack (prec emax : Z) (s : bool) (qe : Z * Z) : spec_float :=
  match fst qe with
  | Z0 => S754_zero s
  | Zpos p =>
      if snd qe <=? emax - prec then S754_finite s p (snd qe) else S754_infinity s
  | Zneg _ => S754_nan
  end.

(** [m1 * 2^e1 <= m2 * 2^e2], stated on integers. *)
Definition dle (m1 e1 m2 e2 : Z) : Prop :=
  m1 * 2 ^ (e1 - Z.min e1 e2) <= m2 * 2 ^ (e2 - Z.min e1 e2).

(** Order of canonical (mantissa, exponent) pairs: exponent first. *)
Definition lex_le (a b : Z * Z) : Prop :=
  snd a < snd b \/ (snd a = snd b /\ fst a <= fst b).

Definition is_nonneg (x : spec_float) : bool :=
  match x with
  | S754_zero _ | S754_finite false _ _ | S754_infinity false => true
  | _ => false
  end.

Definition is_pos (x : spec_float) : bool :=
  match x with
  | S754_finite false _ _ | S754_infinity false => true
  | _ => false
  end.

(** The pair handed to [binary_round_aux] by [binary_round]: the mantissa
    shifted left down to the target exponent when it has too few digits. *)
Definition aligned (prec emax : Z) (m : positive) (e : Z) : Z * Z :=
  let E := fexp prec emax (Zdigits2 (Zpos m) + e) in
  (Zpos m * 2 ^ (e - Z.min e E), Z.min e E).

(** * Lemmas *)

(** ** Shifts and rounding on integers *)

Lemma pow2_pos k : 0 <= k -> 0 < 2 ^ k.
Proof. intros. apply Z.pow_pos_nonneg; lia. Qed.

Lemma pow2_lt_inv a b : 2 ^ a < 2 ^ b -> 0 <= b -> a < b.
Proof.
  intros H Hb. destruct (Z.ltb_spec a b); [assumption|].
  pose proof (Z.pow_le_mono_r 2 b a ltac:(lia) ltac:(lia)). lia.
Qed.

Lemma digits2_pos_size m : digits2_pos m = Pos.size m.
Proof. induction m; simpl; congruence. Qed.

Lemma digits2_bounds m :
  2 ^ (Zpos (digits2_pos m) - 1) <= Zpos m < 2 ^ Zpos (digits2_pos m).
Proof.
  rewrite digits2_pos_size. split.
  - pose proof (Pos.size_le m) as H.
    assert (2 ^ Zpos (Pos.size m) <= 2 * Zpos m).
    { change (2 * Zpos m) with (Zpos m~0). rewrite <- Pos2Z.inj_pow. lia. }
    replace (Zpos (Pos.size m)) with (Z.succ (Zpos (Pos.size m) - 1)) in H0 by lia.
    rewrite Z.pow_succ_r in H0 by lia. lia.
  - pose proof (Pos.size_gt m) as H. rewrite <- Pos2Z.inj_pow. lia.
Qed.

Lemma iter_pos_nat {A} (f : A -> A) p x :
  SpecFloat.iter_pos f p x = Nat.iter (Pos.to_nat p) f x.
Proof.
  revert x. induction p as [p IH|p IH|]; intros x; cbn [SpecFloat.iter_pos].
  - rewrite !IH, Pos2Nat.inj_xI.
    replace (S (2 * Pos.to_nat p)) with (Pos.to_nat p + S (Pos.to_nat p))%nat by lia.
    rewrite Nat.iter_add. f_equal. rewrite Nat.iter_swap. reflexivity.
  - rewrite !IH, Pos2Nat.inj_xO.
    replace (2 * Pos.to_nat p)%nat with (Pos.to_nat p + Pos.to_nat p)%nat by lia.
    now rewrite Nat.iter_add.
  - reflexivity.
Qed.

Lemma Zdigits2_log2 m : 0 < m -> Zdigits2 m = Z.log2 m + 1.
Proof.
  destruct m as [|p|p]; try lia. intros _. simpl.
  rewrite digits2_pos_size. destruct p; simpl; lia.
Qed.

Lemma shr_1_fields mrs :
  0 <= shr_m mrs ->
  shr_m (shr_1 mrs) = shr_m mrs / 2 /\
  shr_r (shr_1 mrs) = Z.odd (shr_m mrs) /\
  shr_s (shr_1 mrs) = shr_r mrs || shr_s mrs.
Proof.
  destruct mrs as [m r s]. simpl. intros Hm.
  rewrite <- Z.div2_div.
  destruct m as [|[p|p|]|p]; simpl; try lia; auto.
Qed.

Lemma shr_iter m0 (k : nat) :
  0 <= m0 ->
  let mrs := Nat.iter (S k) shr_1 (Build_shr_record m0 false false) in
  shr_m mrs = m0 / 2 ^ Z.of_nat (S k) /\
  shr_r mrs = Z.odd (m0 / 2 ^ Z.of_nat k) /\
  shr_s mrs = negb (m0 mod 2 ^ Z.of_nat k =? 0).
Proof.
  intros Hm. induction k as [|k IH].
  - cbn [Nat.iter nat_rect]. destruct (shr_1_fields (Build_shr_record m0 false false) Hm) as (H1 & H2 & H3).
    cbn [shr_m shr_r shr_s] in *. rewrite H1, H2, H3.
    change (2 ^ Z.of_nat 1) with 2. change (2 ^ Z.of_nat 0) with 1.
    rewrite Z.div_1_r, Z.mod_1_r. auto.
  - cbn zeta in IH. destruct IH as (I1 & I2 & I3).
    set (prev := Nat.iter (S k) shr_1 (Build_shr_record m0 false false)) in *.
    change (Nat.iter (S (S k)) shr_1 (Build_shr_record m0 false false)) with (shr_1 prev).
    cbv zeta.
    assert (Hp : 0 <= shr_m prev).
    { rewrite I1. apply Z.div_pos; [lia | apply Z.pow_pos_nonneg; lia]. }
    destruct (shr_1_fields prev Hp) as (H1 & H2 & H3).
    rewrite H1, H2, H3, I1, I2, I3.
    assert (P : 0 < 2 ^ Z.of_nat k) by (apply Z.pow_pos_nonneg; lia).
    assert (E1 : 2 ^ Z.of_nat (S k) = 2 ^ Z.of_nat k * 2).
    { rewrite Nat2Z.inj_succ, Z.pow_succ_r by lia. lia. }
    assert (E2 : 2 ^ Z.of_nat (S (S k)) = 2 ^ Z.of_nat (S k) * 2).
    { rewrite (Nat2Z.inj_succ (S k)), Z.pow_succ_r by lia. lia. }
    repeat split.
    + rewrite E2. rewrite Z.div_div by lia. reflexivity.
    + rewrite E1. rewrite Z.rem_mul_r by lia.
      rewrite Zmod_odd.
      pose proof (Z.mod_pos_bound m0 (2 ^ Z.of_nat k) P).
      destruct (Z.odd (m0 / 2 ^ Z.of_nat k)); simpl.
      * symmetry. apply negb_true_iff, Z.eqb_neq. lia.
      * f_equal. rewrite Z.mul_0_r, Z.add_0_r. reflexivity.
Qed.

Lemma shr_rne m0 e n :
  0 <= m0 -> 0 <= n ->
  let '(mrs, e') := shr (Build_shr_record m0 false false) e n in
  round_nearest_even (shr_m mrs) (loc_of_shr_record mrs) = rne_shift m0 n /\
  shr_m mrs = m0 / 2 ^ n /\ e' = e + n.
Proof.
  intros Hm Hn. destruct n as [|p|p]; try lia.
  - simpl. unfold rne_shift. change (2 ^ 0) with 1.
    rewrite Z.mod_1_r, Z.div_1_r. simpl. repeat split; lia.
  - unfold shr. rewrite iter_pos_nat.
    destruct (Pos2Nat.is_succ p) as [k Hk]. rewrite Hk.
    destruct (shr_iter m0 k Hm) as (H1 & H2 & H3).
    set (mrs := Nat.iter (S k) shr_1 (Build_shr_record m0 false false)) in *.
    assert (Hp : Zpos p = Z.of_nat (S k)) by lia.
    rewrite Hp. split; [|split; [exact H1 | reflexivity]].
    unfold rne_shift. rewrite <- H1.
    assert (P : 0 < 2 ^ Z.of_nat k) by (apply Z.pow_pos_nonneg; lia).
    assert (E1 : 2 ^ Z.of_nat (S k) = 2 ^ Z.of_nat k * 2).
    { rewrite Nat2Z.inj_succ, Z.pow_succ_r by lia. lia. }
    rewrite E1. rewrite Z.rem_mul_r by lia. rewrite Zmod_odd, <- H2.
    pose proof (Z.mod_pos_bound m0 (2 ^ Z.of_nat k) P) as B.
    destruct mrs as [q r s]. cbn [shr_m shr_r shr_s] in *.
    destruct r, s; simpl loc_of_shr_record; cbn [round_nearest_even];
      symmetry in H3; try apply negb_true_iff in H3; try apply negb_false_iff in H3;
      try apply Z.eqb_neq in H3; try apply Z.eqb_eq in H3.
    + replace (_ ?= _) with Gt; [reflexivity | symmetry; apply Z.compare_gt_iff; lia].
    + replace (_ ?= _) with Eq; [reflexivity | symmetry; apply Z.compare_eq_iff; lia].
    + replace (_ ?= _) with Lt; [reflexivity | symmetry; apply Z.compare_lt_iff; lia].
    + replace (_ ?= _) with Lt; [reflexivity | symmetry; apply Z.compare_lt_iff; lia].
Qed.

Lemma Zdigits2_bounds q : 0 < q -> 2 ^ (Zdigits2 q - 1) <= q < 2 ^ Zdigits2 q.
Proof.
  intros Hq. rewrite Zdigits2_log2 by assumption.
  replace (Z.log2 q + 1 - 1) with (Z.log2 q) by lia.
  apply Z.log2_spec. assumption.
Qed.

Lemma Zdigits2_unique q d : 0 < q -> 2 ^ (d - 1) <= q < 2 ^ d -> Zdigits2 q = d.
Proof.
  intros Hq [H1 H2]. rewrite Zdigits2_log2 by assumption.
  assert (0 < d).
  { destruct (Z.ltb_spec 0 d); [assumption|].
    destruct (Z.eq_dec d 0) as [->|]; [simpl in H2; lia|].
    rewrite Z.pow_neg_r in H2 by lia. lia. }
  rewrite (Z.log2_unique q (d - 1)); [lia | lia |].
  replace (Z.succ (d - 1)) with d by lia. auto.
Qed.

Lemma Zdigits2_mul_pow2 m k : 0 < m -> 0 <= k -> Zdigits2 (m * 2 ^ k) = Zdigits2 m + k.
Proof.
  intros Hm Hk. assert (0 < 2 ^ k) by (apply Z.pow_pos_nonneg; lia).
  rewrite !Zdigits2_log2 by nia. rewrite Z.log2_mul_pow2 by lia. lia.
Qed.

Lemma Zdigits2_le_mono a b : 0 < a -> a <= b -> Zdigits2 a <= Zdigits2 b.
Proof.
  intros Ha Hab. rewrite !Zdigits2_log2 by lia.
  pose proof (Z.log2_le_mono a b Hab). lia.
Qed.

Lemma rne_shift_floor m n :
  0 <= m -> 0 <= n -> m / 2 ^ n <= rne_shift m n <= m / 2 ^ n + 1.
Proof.
  intros Hm Hn. unfold rne_shift.
  destruct (_ ?= _); [destruct (Z.even _)|..]; lia.
Qed.

Lemma rne_shift_scale m n k :
  0 <= n -> 0 <= k -> rne_shift (m * 2 ^ k) (n + k) = rne_shift m n.
Proof.
  intros Hn Hk. unfold rne_shift.
  assert (0 < 2 ^ k) by (apply Z.pow_pos_nonneg; lia).
  assert (0 < 2 ^ n) by (apply Z.pow_pos_nonneg; lia).
  rewrite Z.pow_add_r by lia.
  rewrite Z.div_mul_cancel_r by lia.
  rewrite Z.mul_mod_distr_r by lia.
  replace (2 * (m mod 2 ^ n * 2 ^ k) ?= 2 ^ n * 2 ^ k) with (2 * (m mod 2 ^ n) ?= 2 ^ n);
    [reflexivity|].
  destruct (Z.compare_spec (2 * (m mod 2 ^ n)) (2 ^ n)); symmetry.
  - apply Z.compare_eq_iff. nia.
  - apply Z.compare_lt_iff. nia.
  - apply Z.compare_gt_iff. nia.
Qed.

Lemma rne_shift_mono a b n :
  0 <= n -> a <= b -> rne_shift a n <= rne_shift b n.
Proof.
  intros Hn Hab. unfold rne_shift.
  assert (P : 0 < 2 ^ n) by (apply Z.pow_pos_nonneg; lia).
  pose proof (Z.div_le_mono a b (2 ^ n) P Hab) as Hq.
  pose proof (Z.div_mod a (2 ^ n) ltac:(lia)) as Ea.
  pose proof (Z.div_mod b (2 ^ n) ltac:(lia)) as Eb.
  pose proof (Z.mod_pos_bound a (2 ^ n) P) as Ba.
  pose proof (Z.mod_pos_bound b (2 ^ n) P) as Bb.
  destruct (Z.eq_dec (a / 2 ^ n) (b / 2 ^ n)) as [Heq|Hne].
  - rewrite <- Heq in *.
    assert (a mod 2 ^ n <= b mod 2 ^ n) by lia.
    destruct (Z.compare_spec (2 * (a mod 2 ^ n)) (2 ^ n));
    destruct (Z.compare_spec (2 * (b mod 2 ^ n)) (2 ^ n));
    try destruct (Z.even _); lia.
  - assert (a / 2 ^ n + 1 <= b / 2 ^ n) by lia.
    destruct (2 * (a mod 2 ^ n) ?= 2 ^ n); destruct (2 * (b mod 2 ^ n) ?= 2 ^ n);
    repeat match goal with |- context [Z.even ?x] => destruct (Z.even x) end; lia.
Qed.

Lemma dle_alt c m1 e1 m2 e2 :
  c <= e1 -> c <= e2 ->
  dle m1 e1 m2 e2 <-> m1 * 2 ^ (e1 - c) <= m2 * 2 ^ (e2 - c).
Proof.
  intros H1 H2. unfold dle. set (k := Z.min e1 e2).
  assert (Hk : 0 <= k - c) by (unfold k; lia).
  pose proof (pow2_pos (k - c) Hk) as P.
  replace (e1 - c) with ((e1 - k) + (k - c)) by lia.
  replace (e2 - c) with ((e2 - k) + (k - c)) by lia.
  rewrite !Z.pow_add_r by (unfold k; lia).
  rewrite !Z.mul_assoc. split; intros H; nia.
Qed.

Lemma iter_xO_pow m d : Zpos (Pos.iter xO m d) = Zpos m * 2 ^ Zpos d.
Proof.
  induction d as [|d IH] using Pos.peano_ind.
  - simpl. lia.
  - rewrite Pos.iter_succ, Pos2Z.inj_succ, Z.pow_succ_r by lia.
    rewrite Pos2Z.inj_xO, IH. lia.
Qed.

Lemma shl_align_spec m e e' :
  snd (shl_align m e e') = Z.min e e' /\
  Zpos (fst (shl_align m e e')) = Zpos m * 2 ^ (e - Z.min e e').
Proof.
  unfold shl_align. destruct (e' - e) as [|d|d] eqn:Hd; cbn [fst snd].
  - rewrite Z.min_l by lia. rewrite Z.sub_diag. simpl. lia.
  - rewrite Z.min_l by lia. rewrite Z.sub_diag. simpl. lia.
  - rewrite Z.min_r by lia. split; [reflexivity|].
    rewrite iter_xO_pow. f_equal. f_equal. lia.
Qed.

Lemma SFleb_fin m1 e1 m2 e2 :
  SFleb (S754_finite false m1 e1) (S754_finite false m2 e2) = true <->
  (e1 < e2 \/ (e1 = e2 /\ Zpos m1 <= Zpos m2)).
Proof.
  unfold SFleb, SFcompare. rewrite Pos.compare_cont_spec. simpl.
  destruct (Z.compare_spec e1 e2); destruct (Pos.compare_spec m1 m2);
    split; intros H'; try discriminate; try reflexivity; lia.
Qed.

Lemma SFltb_fin m1 e1 m2 e2 :
  SFltb (S754_finite false m1 e1) (S754_finite false m2 e2) = true <->
  (e1 < e2 \/ (e1 = e2 /\ Zpos m1 < Zpos m2)).
Proof.
  unfold SFltb, SFcompare. rewrite Pos.compare_cont_spec. simpl.
  destruct (Z.compare_spec e1 e2); destruct (Pos.compare_spec m1 m2);
    split; intros H'; try discriminate; try reflexivity; lia.
Qed.

Lemma SFleb_nonneg_inf x : is_nonneg x = true -> SFleb x (S754_infinity false) = true.
Proof. destruct x as [s|[]| |[] m e]; simpl; intros; try discriminate; reflexivity. Qed.

Lemma SFleb_zero_nonneg s x : is_nonneg x = true -> SFleb (S754_zero s) x = true.
Proof. destruct x as [s'|[]| |[] m e]; simpl; intros; try discriminate; reflexivity. Qed.

Lemma SFleb_pos_l x y : is_pos x = true -> SFleb x y = true -> is_pos y = true.
Proof.
  destruct x as [s|[]| |[] m e]; simpl; intros Hx; try discriminate;
  destruct y as [s'|[]| |[] m' e']; simpl; intros; try discriminate; reflexivity.
Qed.

Lemma SFleb_refl_fin m e : SFleb (S754_finite false m e) (S754_finite false m e) = true.
Proof. apply SFleb_fin. lia. Qed.

Lemma trunc_me_scaled c m e :
  c <= e -> c <= 0 -> trunc_me m e = (m * 2 ^ (e - c)) / 2 ^ (- c).
Proof.
  intros H1 H2. unfold trunc_me.
  pose proof (pow2_pos (- c) ltac:(lia)) as Pc.
  destruct (Z.leb_spec 0 e).
  - replace (e - c) with (e + - c) by lia. rewrite Z.pow_add_r by lia.
    rewrite Z.mul_assoc, Z.div_mul by lia. reflexivity.
  - replace (- c) with (- e + (e - c)) by lia. rewrite Z.pow_add_r by lia.
    pose proof (pow2_pos (- e) ltac:(lia)). pose proof (pow2_pos (e - c) ltac:(lia)).
    rewrite Z.div_mul_cancel_r by lia. reflexivity.
Qed.

Lemma trunc_me_mono m1 e1 m2 e2 :
  0 <= m1 -> dle m1 e1 m2 e2 -> 0 <= trunc_me m1 e1 <= trunc_me m2 e2.
Proof.
  intros Hm Hle. set (c := Z.min (Z.min e1 e2) 0).
  rewrite (trunc_me_scaled c m1 e1), (trunc_me_scaled c m2 e2) by (unfold c; lia).
  apply (dle_alt c) in Hle; [|unfold c; lia..].
  pose proof (pow2_pos (- c) ltac:(unfold c; lia)) as Pc.
  pose proof (pow2_pos (e1 - c) ltac:(unfold c; lia)) as P1.
  split.
  - apply Z.div_pos; [nia | lia].
  - apply Z.div_le_mono; [lia | exact Hle].
Qed.

Section FloatTheory.

Variables prec emax : Z.
Hypothesis Hprec : 0 < prec.
Hypothesis Hemax : prec < emax.

Local Abbreviation emin := (SpecFloat.emin prec emax).
Local Abbreviation fexp := (SpecFloat.fexp prec emax).
Local Abbreviation valid := (valid_binary prec emax).
Local Abbreviation mul := (SFmul prec emax).
Local Abbreviation add := (SFadd prec emax).

Lemma round_q_bounds m e :
  0 < m -> e <= fexp (Zdigits2 m + e) ->
  0 <= rne_shift m (fexp (Zdigits2 m + e) - e) <= 2 ^ prec /\
  (emin < fexp (Zdigits2 m + e) ->
   2 ^ (prec - 1) <= rne_shift m (fexp (Zdigits2 m + e) - e)).
Proof.
  intros Hm Hpre.
  set (E := fexp (Zdigits2 m + e)) in *.
  set (n := E - e). assert (Hn : 0 <= n) by (unfold n; lia).
  pose proof (Zdigits2_bounds m Hm) as [D1 D2].
  set (d := Zdigits2 m) in *.
  assert (Hd : 0 < d) by (unfold d; rewrite Zdigits2_log2 by lia; pose proof (Z.log2_nonneg m); lia).
  pose proof (rne_shift_floor m n ltac:(lia) Hn) as [F1 F2].
  pose proof (pow2_pos n Hn) as Pn.
  assert (HE : d + e - prec <= E /\ emin <= E) by (unfold E, SpecFloat.fexp; lia).
  assert (Hup : m / 2 ^ n < 2 ^ prec).
  { apply Z.div_lt_upper_bound; [lia|]. rewrite <- Z.pow_add_r by lia.
    pose proof (Z.pow_le_mono_r 2 d (n + prec) ltac:(lia) ltac:(unfold n; lia)). lia. }
  split.
  - split; [|lia]. pose proof (Z.div_pos m (2 ^ n) ltac:(lia) Pn). lia.
  - intros Hlt. assert (HE' : E = d + e - prec) by (unfold E, SpecFloat.fexp in *; lia).
    assert (2 ^ (prec - 1) <= m / 2 ^ n); [|lia].
    apply Z.div_le_lower_bound; [lia|]. rewrite <- Z.pow_add_r by lia.
    replace (n + (prec - 1)) with (d - 1) by (unfold n; lia). assumption.
Qed.

Lemma round_me_props m e :
  0 < m -> e <= fexp (Zdigits2 m + e) ->
  0 <= fst (round_me prec emax m e) < 2 ^ prec /\
  emin <= snd (round_me prec emax m e) /\
  (emin < snd (round_me prec emax m e) -> 2 ^ (prec - 1) <= fst (round_me prec emax m e)).
Proof.
  intros Hm Hpre. destruct (round_q_bounds m e Hm Hpre) as [[B1 B2] B3].
  unfold round_me. cbv zeta.
  assert (HE : emin <= fexp (Zdigits2 m + e)) by (unfold SpecFloat.fexp; lia).
  pose proof (pow2_pos (prec - 1) ltac:(lia)) as P1.
  assert (P2 : 2 ^ prec = 2 * 2 ^ (prec - 1)).
  { replace prec with (Z.succ (prec - 1)) at 1 by lia. rewrite Z.pow_succ_r by lia. reflexivity. }
  destruct (Z.eqb_spec (rne_shift m (fexp (Zdigits2 m + e) - e)) (2 ^ prec)) as [Heq|Hne];
    cbn [fst snd].
  - repeat split; lia.
  - repeat split; lia.
Qed.

Lemma fexp_canonical q E :
  0 < q < 2 ^ prec -> emin <= E -> (emin < E -> 2 ^ (prec - 1) <= q) ->
  fexp (Zdigits2 q + E) = E.
Proof.
  intros [Q1 Q2] HE Hn.
  pose proof (Zdigits2_bounds q Q1) as [D1 D2].
  assert (Zdigits2 q - 1 < prec) by (apply pow2_lt_inv; lia).
  unfold SpecFloat.fexp.
  destruct (Z.eq_dec E emin) as [->|Hne]; [lia|].
  assert (0 < Zdigits2 q) by (rewrite Zdigits2_log2 by lia; pose proof (Z.log2_nonneg q); lia).
  assert (prec - 1 < Zdigits2 q).
  { apply pow2_lt_inv; [|lia]. specialize (Hn ltac:(lia)). lia. }
  lia.
Qed.

Lemma bra_spec s m e :
  0 < m -> e <= fexp (Zdigits2 m + e) ->
  binary_round_aux prec emax s m e loc_Exact = pack prec emax s (round_me prec emax m e).
Proof.
  intros Hm Hpre.
  destruct (round_q_bounds m e Hm Hpre) as [[B1 B2] B3].
  unfold binary_round_aux, shr_fexp, round_me. cbv zeta.
  set (E := fexp (Zdigits2 m + e)) in *.
  cbn [shr_record_of_loc].
  pose proof (shr_rne m e (E - e) ltac:(lia) ltac:(lia)) as H1.
  destruct (shr _ e (E - e)) as [mrs e'].
  destruct H1 as (H1 & _ & He'). rewrite H1.
  replace e' with E by lia. clear He' H1 mrs e'.
  set (q := rne_shift m (E - e)) in *.
  assert (HE : emin <= E) by (unfold E, SpecFloat.fexp; lia).
  pose proof (pow2_pos (prec - 1) ltac:(lia)) as P1.
  assert (P2 : 2 ^ prec = 2 * 2 ^ (prec - 1)).
  { replace prec with (Z.succ (prec - 1)) at 1 by lia. rewrite Z.pow_succ_r by lia. reflexivity. }
  destruct (Z.eqb_spec q (2 ^ prec)) as [Heq|Hne].
  - rewrite Heq.
    assert (Hd : Zdigits2 (2 ^ prec) = prec + 1).
    { apply Zdigits2_unique; [lia|]. replace (prec + 1 - 1) with prec by lia.
      split; [lia|]. rewrite Z.pow_add_r by lia. lia. }
    rewrite Hd.
    assert (Hf : fexp (prec + 1 + E) - E = 1) by (unfold SpecFloat.fexp; lia).
    rewrite Hf.
    pose proof (shr_rne (2 ^ prec) E 1 ltac:(lia) ltac:(lia)) as H2.
    destruct (shr _ E 1) as [mrs2 e2]. destruct H2 as (_ & H2 & He2).
    unfold pack. cbn [fst snd]. rewrite H2, He2.
    change (2 ^ 1) with 2. rewrite P2. rewrite Z.mul_comm, Z.div_mul by lia.
    reflexivity.
  - assert (Hf : fexp (Zdigits2 q + E) - E <= 0).
    { destruct (Z.eq_dec q 0) as [->|Hq0].
      - simpl. unfold SpecFloat.fexp. lia.
      - rewrite fexp_canonical; lia. }
    unfold shr. destruct (fexp (Zdigits2 q + E) - E) eqn:Hn; try lia; reflexivity.
Qed.

Lemma round_me_mono m1 e1 m2 e2 :
  0 < m1 -> 0 < m2 ->
  e1 <= fexp (Zdigits2 m1 + e1) -> e2 <= fexp (Zdigits2 m2 + e2) ->
  dle m1 e1 m2 e2 ->
  lex_le (round_me prec emax m1 e1) (round_me prec emax m2 e2).
Proof.
  intros Hm1 Hm2 Hp1 Hp2 Hle.
  destruct (round_q_bounds m1 e1 Hm1 Hp1) as [[A1 A2] A3].
  destruct (round_q_bounds m2 e2 Hm2 Hp2) as [[B1 B2] B3].
  set (c := Z.min e1 e2). unfold dle in Hle. fold c in Hle.
  assert (Hc1 : 0 <= e1 - c) by (unfold c; lia).
  assert (Hc2 : 0 <= e2 - c) by (unfold c; lia).
  pose proof (pow2_pos _ Hc1) as P1. pose proof (pow2_pos _ Hc2) as P2.
  set (X1 := m1 * 2 ^ (e1 - c)) in *. set (X2 := m2 * 2 ^ (e2 - c)) in *.
  assert (HX1 : 0 < X1) by (unfold X1; nia).
  pose proof (Zdigits2_le_mono X1 X2 HX1 Hle) as HD.
  unfold X1, X2 in HD. rewrite !Zdigits2_mul_pow2 in HD by lia.
  set (E1 := fexp (Zdigits2 m1 + e1)) in *.
  set (E2 := fexp (Zdigits2 m2 + e2)) in *.
  assert (HE : E1 <= E2) by (unfold E1, E2, SpecFloat.fexp; lia).
  assert (HEm : emin <= E1) by (unfold E1, SpecFloat.fexp; lia).
  pose proof (pow2_pos (prec - 1) ltac:(lia)) as Pp.
  assert (Ppp : 2 ^ prec = 2 * 2 ^ (prec - 1)).
  { replace prec with (Z.succ (prec - 1)) at 1 by lia. rewrite Z.pow_succ_r by lia. reflexivity. }
  unfold round_me, lex_le. cbv zeta. fold E1 E2.
  destruct (Z.eq_dec E1 E2) as [Heq|Hne].
  - assert (Hq : rne_shift m1 (E1 - e1) <= rne_shift m2 (E2 - e2)).
    { rewrite <- (rne_shift_scale m1 (E1 - e1) (e1 - c)) by lia.
      rewrite <- (rne_shift_scale m2 (E2 - e2) (e2 - c)) by lia.
      replace (E1 - e1 + (e1 - c)) with (E2 - c) by lia.
      replace (E2 - e2 + (e2 - c)) with (E2 - c) by lia.
      apply rne_shift_mono; [lia | exact Hle]. }
    destruct (Z.eqb_spec (rne_shift m1 (E1 - e1)) (2 ^ prec));
    destruct (Z.eqb_spec (rne_shift m2 (E2 - e2)) (2 ^ prec)); cbn [fst snd]; lia.
  - specialize (B3 ltac:(lia)).
    destruct (Z.eqb_spec (rne_shift m1 (E1 - e1)) (2 ^ prec));
    destruct (Z.eqb_spec (rne_shift m2 (E2 - e2)) (2 ^ prec)); cbn [fst snd]; lia.
Qed.

Lemma pack_valid s m e :
  0 < m -> e <= fexp (Zdigits2 m + e) ->
  valid_binary prec emax (pack prec emax s (round_me prec emax m e)) = true.
Proof.
  intros Hm Hp. destruct (round_me_props m e Hm Hp) as ([Q1 Q2] & HE & Hn).
  unfold pack. destruct (round_me prec emax m e) as [q E]. cbn [fst snd] in *.
  destruct q as [|p|p]; try reflexivity.
  destruct (Z.leb_spec E (emax - prec)) as [Hle|Hgt]; [|reflexivity].
  cbn [valid_binary]. unfold bounded, canonical_mantissa.
  change (Z.pos (digits2_pos p)) with (Zdigits2 (Zpos p)).
  rewrite fexp_canonical by (auto; lia).
  rewrite Z.eqb_refl. apply Z.leb_le in Hle. rewrite Hle. reflexivity.
Qed.

Lemma pack_le a b :
  0 <= fst a -> emin <= snd a ->
  0 <= fst b -> (emin < snd b -> 0 < fst b) ->
  lex_le a b ->
  SFleb (pack prec emax false a) (pack prec emax false b) = true.
Proof.
  destruct a as [q1 E1], b as [q2 E2]. unfold lex_le, pack. cbn [fst snd].
  intros A1 A2 B1 B2 Hlex.
  destruct q1 as [|p1|p1]; try lia; destruct q2 as [|p2|p2]; try lia.
  - reflexivity.
  - destruct (E2 <=? emax - prec); reflexivity.
  - destruct (Z.leb_spec E1 (emax - prec)); destruct (Z.leb_spec E2 (emax - prec));
      try reflexivity; try lia.
    + unfold SFleb, SFcompare.
      destruct (Z.compare_spec E1 E2); try lia; try reflexivity.
      rewrite Pos.compare_cont_spec. simpl.
      destruct (Pos.compare_spec p1 p2); try reflexivity; lia.
Qed.

Lemma bounded_canonical m e :
  bounded prec emax m e = true ->
  fexp (Zdigits2 (Zpos m) + e) = e /\ e <= emax - prec.
Proof.
  unfold bounded, canonical_mantissa. intros H.
  apply andb_true_iff in H. destruct H as [H1 H2].
  apply Z.eqb_eq in H1. apply Z.leb_le in H2. auto.
Qed.

Lemma bounded_mantissa m e :
  bounded prec emax m e = true ->
  emin <= e /\ Zpos m < 2 ^ prec /\ (emin < e -> 2 ^ (prec - 1) <= Zpos m).
Proof.
  intros H. destruct (bounded_canonical m e H) as [Hc _].
  pose proof (Zdigits2_bounds (Zpos m) ltac:(lia)) as [D1 D2].
  set (d := Zdigits2 (Zpos m)) in *.
  assert (Hd : 0 < d) by (unfold d; simpl; lia).
  unfold SpecFloat.fexp in Hc.
  assert (Hdp : d <= prec) by lia.
  split; [lia|]. split.
  - pose proof (Z.pow_le_mono_r 2 d prec ltac:(lia) Hdp). lia.
  - intros Hlt. assert (d = prec) by lia. subst d. rewrite <- H0. assumption.
Qed.

Lemma SFleb_dle m1 e1 m2 e2 :
  bounded prec emax m1 e1 = true -> bounded prec emax m2 e2 = true ->
  SFleb (S754_finite false m1 e1) (S754_finite false m2 e2) = true ->
  dle (Zpos m1) e1 (Zpos m2) e2.
Proof.
  intros V1 V2 Hle.
  destruct (bounded_mantissa m1 e1 V1) as (A1 & A2 & A3).
  destruct (bounded_mantissa m2 e2 V2) as (B1 & B2 & B3).
  unfold SFleb, SFcompare in Hle. unfold dle.
  pose proof (pow2_pos (prec - 1) ltac:(lia)) as Pp.
  assert (Ppp : 2 ^ prec = 2 * 2 ^ (prec - 1)).
  { replace prec with (Z.succ (prec - 1)) at 1 by lia. rewrite Z.pow_succ_r by lia. reflexivity. }
  destruct (Z.compare_spec e1 e2) as [Heq|Hlt|Hgt]; try discriminate.
  - subst e2. rewrite Z.min_id, Z.sub_diag. simpl.
    rewrite Pos.compare_cont_spec in Hle. simpl in Hle.
    destruct (Pos.compare_spec m1 m2); try discriminate; lia.
  - rewrite Z.min_l by lia. rewrite Z.sub_diag. change (2 ^ 0) with 1.
    specialize (B3 ltac:(lia)).
    pose proof (Z.pow_le_mono_r 2 1 (e2 - e1) ltac:(lia) ltac:(lia)) as Hp.
    change (2 ^ 1) with 2 in Hp. nia.
Qed.

Lemma aligned_props m e :
  0 < fst (aligned prec emax m e) /\
  snd (aligned prec emax m e) <= fexp (Zdigits2 (fst (aligned prec emax m e)) + snd (aligned prec emax m e)) /\
  snd (aligned prec emax m e) <= e /\
  fst (aligned prec emax m e) = Zpos m * 2 ^ (e - snd (aligned prec emax m e)).
Proof.
  unfold aligned. cbv zeta. cbn [fst snd].
  set (E := fexp (Zdigits2 (Zpos m) + e)).
  pose proof (pow2_pos (e - Z.min e E) ltac:(lia)) as P.
  split; [nia|]. split; [|split; [lia | reflexivity]].
  rewrite Zdigits2_mul_pow2 by lia.
  replace (Zdigits2 (Zpos m) + (e - Z.min e E) + Z.min e E) with (Zdigits2 (Zpos m) + e) by lia.
  fold E. lia.
Qed.

Lemma binary_round_spec s m e :
  binary_round prec emax s m e =
  pack prec emax s (round_me prec emax (fst (aligned prec emax m e)) (snd (aligned prec emax m e))).
Proof.
  unfold binary_round.
  pose proof (shl_align_spec m e (fexp (Z.pos (digits2_pos m) + e))) as [S1 S2].
  destruct (shl_align m e _) as [mz ez]. cbn [fst snd] in S1, S2.
  destruct (aligned_props m e) as (A1 & A2 & _).
  rewrite <- bra_spec by assumption.
  assert (Hs : snd (aligned prec emax m e) = ez) by (rewrite S1; reflexivity).
  assert (Hf : fst (aligned prec emax m e) = Zpos mz) by (rewrite S2; reflexivity).
  rewrite Hs, Hf. reflexivity.
Qed.

Lemma binary_round_valid s m e :
  valid_binary prec emax (binary_round prec emax s m e) = true.
Proof.
  rewrite binary_round_spec. destruct (aligned_props m e) as (A1 & A2 & _).
  apply pack_valid; assumption.
Qed.

Lemma pack_nonneg qe : 0 <= fst qe -> is_nonneg (pack prec emax false qe) = true.
Proof.
  unfold pack. destruct qe as [[|p|p] E]; cbn [fst snd]; intros; try lia; try reflexivity.
  destruct (E <=? emax - prec); reflexivity.
Qed.

Lemma binary_round_nonneg m e :
  is_nonneg (binary_round prec emax false m e) = true.
Proof.
  rewrite binary_round_spec. destruct (aligned_props m e) as (A1 & A2 & _).
  apply pack_nonneg. apply round_me_props; assumption.
Qed.

Lemma round_le m1 e1 m2 e2 :
  0 < m1 -> 0 < m2 ->
  e1 <= fexp (Zdigits2 m1 + e1) -> e2 <= fexp (Zdigits2 m2 + e2) ->
  dle m1 e1 m2 e2 ->
  SFleb (pack prec emax false (round_me prec emax m1 e1))
        (pack prec emax false (round_me prec emax m2 e2)) = true.
Proof.
  intros Hm1 Hm2 Hp1 Hp2 Hle.
  destruct (round_me_props m1 e1 Hm1 Hp1) as ([A1 A2] & A3 & A4).
  destruct (round_me_props m2 e2 Hm2 Hp2) as ([B1 B2] & B3 & B4).
  pose proof (pow2_pos (prec - 1) ltac:(lia)).
  apply pack_le; try lia.
  apply round_me_mono; assumption.
Qed.

Lemma binary_round_mono m1 e1 m2 e2 :
  dle (Zpos m1) e1 (Zpos m2) e2 ->
  SFleb (binary_round prec emax false m1 e1) (binary_round prec emax false m2 e2) = true.
Proof.
  intros Hle. rewrite !binary_round_spec.
  destruct (aligned_props m1 e1) as (A1 & A2 & A3 & A4).
  destruct (aligned_props m2 e2) as (B1 & B2 & B3 & B4).
  apply round_le; try assumption.
  set (c := Z.min (snd (aligned prec emax m1 e1)) (snd (aligned prec emax m2 e2))).
  apply (dle_alt c); [unfold c; lia | unfold c; lia |].
  apply (dle_alt c) in Hle; [|unfold c; lia..].
  rewrite A4, B4. rewrite <- !Z.mul_assoc, <- !Z.pow_add_r by (unfold c; lia).
  replace (e1 - snd (aligned prec emax m1 e1) + (snd (aligned prec emax m1 e1) - c)) with (e1 - c) by lia.
  replace (e2 - snd (aligned prec emax m2 e2) + (snd (aligned prec emax m2 e2) - c)) with (e2 - c) by lia.
  exact Hle.
Qed.

Lemma round_exact m e :
  bounded prec emax m e = true ->
  pack prec emax false (round_me prec emax (Zpos m) e) = S754_finite false m e.
Proof.
  intros Hb. destruct (bounded_canonical m e Hb) as [Hc Hle].
  destruct (bounded_mantissa m e Hb) as (A1 & A2 & A3).
  unfold round_me. cbv zeta. rewrite Hc, Z.sub_diag.
  assert (Hr : rne_shift (Zpos m) 0 = Zpos m).
  { unfold rne_shift. change (2 ^ 0) with 1. rewrite Z.mod_1_r, Z.div_1_r. reflexivity. }
  rewrite Hr. destruct (Z.eqb_spec (Zpos m) (2 ^ prec)); [lia|].
  unfold pack. cbn [fst snd]. apply Z.leb_le in Hle. rewrite Hle. reflexivity.
Qed.

Lemma mul_precondition mx ex my ey :
  bounded prec emax mx ex = true -> bounded prec emax my ey = true ->
  ex + ey <= fexp (Zdigits2 (Zpos (mx * my)) + (ex + ey)).
Proof.
  intros Hx Hy.
  destruct (bounded_mantissa mx ex Hx) as (A1 & A2 & A3).
  destruct (bounded_mantissa my ey Hy) as (B1 & B2 & B3).
  pose proof (Zdigits2_bounds (Zpos (mx * my)) ltac:(lia)) as [D1 D2].
  set (d := Zdigits2 (Zpos (mx * my))) in *.
  assert (Hd : 0 < d) by (unfold d; simpl; lia).
  unfold SpecFloat.fexp.
  destruct (Z.leb_spec (ex + ey) emin) as [|Hgt]; [lia|].
  assert (Hem : emin <= 0) by (unfold SpecFloat.emin; lia).
  assert (prec - 1 < d); [|lia].
  apply pow2_lt_inv; [|lia].
  pose proof (pow2_pos (prec - 1) ltac:(lia)) as Pp.
  rewrite Pos2Z.inj_mul in D2.
  destruct (Z.eq_dec ex emin) as [Hex|Hex].
  - specialize (B3 ltac:(lia)). nia.
  - specialize (A3 ltac:(lia)). nia.
Qed.

Lemma mul_valid x y : valid x = true -> valid y = true -> valid (mul x y) = true.
Proof.
  destruct x as [sx|sx| |sx mx ex], y as [sy|sy| |sy my ey]; intros Vx Vy; try reflexivity.
  cbn [SFmul valid_binary] in *.
  rewrite bra_spec; try assumption; try lia.
  - apply pack_valid; try assumption; try lia.
    apply mul_precondition; assumption.
  - apply mul_precondition; assumption.
Qed.

Lemma mul_fin mx ex my ey :
  bounded prec emax mx ex = true -> bounded prec emax my ey = true ->
  mul (S754_finite false mx ex) (S754_finite false my ey) =
  pack prec emax false (round_me prec emax (Zpos (mx * my)) (ex + ey)).
Proof.
  intros Vx Vy. cbn [SFmul xorb].
  apply bra_spec; try assumption; try lia. apply mul_precondition; assumption.
Qed.

Lemma mul_nonneg x y :
  valid x = true -> valid y = true -> is_pos x = true -> is_pos y = true ->
  is_nonneg (mul x y) = true.
Proof.
  destruct x as [sx|[]| |[] mx ex], y as [sy|[]| |[] my ey]; intros Vx Vy Px Py;
    try discriminate; try reflexivity.
  rewrite mul_fin by assumption. apply pack_nonneg.
  apply round_me_props; [lia|]. apply mul_precondition; assumption.
Qed.

Lemma mul_mono x1 y1 x2 y2 :
  valid x1 = true -> valid y1 = true -> valid x2 = true -> valid y2 = true ->
  is_pos x1 = true -> is_pos y1 = true ->
  SFleb x1 x2 = true -> SFleb y1 y2 = true ->
  SFleb (mul x1 y1) (mul x2 y2) = true.
Proof.
  intros Vx1 Vy1 Vx2 Vy2 Px1 Py1 Hx Hy.
  pose proof (SFleb_pos_l _ _ Px1 Hx) as Px2.
  pose proof (SFleb_pos_l _ _ Py1 Hy) as Py2.
  pose proof (mul_nonneg x1 y1 Vx1 Vy1 Px1 Py1) as N1.
  destruct x2 as [s|[]| |[] mx2 ex2]; try discriminate;
  destruct y2 as [s'|[]| |[] my2 ey2]; try discriminate;
    try (apply SFleb_nonneg_inf; exact N1).
  destruct x1 as [s|[]| |[] mx1 ex1]; try discriminate;
  destruct y1 as [s'|[]| |[] my1 ey1]; try discriminate.
  cbn [valid_binary] in *.
  rewrite !mul_fin by assumption.
  apply round_le; try assumption; try lia; try (apply mul_precondition; assumption).
  pose proof (SFleb_dle _ _ _ _ Vx1 Vx2 Hx) as Dx.
  pose proof (SFleb_dle _ _ _ _ Vy1 Vy2 Hy) as Dy.
  unfold dle in Dx, Dy.
  set (cx := Z.min ex1 ex2) in *. set (cy := Z.min ey1 ey2) in *.
  apply (dle_alt (cx + cy)); [unfold cx, cy; lia..|].
  replace (ex1 + ey1 - (cx + cy)) with ((ex1 - cx) + (ey1 - cy)) by lia.
  replace (ex2 + ey2 - (cx + cy)) with ((ex2 - cx) + (ey2 - cy)) by lia.
  rewrite !Z.pow_add_r by (unfold cx, cy; lia).
  rewrite !Pos2Z.inj_mul.
  pose proof (pow2_pos (ex1 - cx) ltac:(unfold cx; lia)).
  pose proof (pow2_pos (ey1 - cy) ltac:(unfold cy; lia)).
  pose proof (pow2_pos (ex2 - cx) ltac:(unfold cx; lia)).
  pose proof (pow2_pos (ey2 - cy) ltac:(unfold cy; lia)).
  nia.
Qed.

Lemma add_fin mx ex my ey :
  exists a,
    add (S754_finite false mx ex) (S754_finite false my ey) =
      binary_round prec emax false a (Z.min ex ey) /\
    Zpos a = Zpos mx * 2 ^ (ex - Z.min ex ey) + Zpos my * 2 ^ (ey - Z.min ex ey).
Proof.
  cbn [SFadd cond_Zopp].
  destruct (shl_align_spec mx ex (Z.min ex ey)) as [_ S1].
  destruct (shl_align_spec my ey (Z.min ex ey)) as [_ S2].
  exists (fst (shl_align mx ex (Z.min ex ey)) + fst (shl_align my ey (Z.min ex ey)))%positive.
  split; [reflexivity|].
  rewrite Pos2Z.inj_add, S1, S2.
  replace (Z.min ex (Z.min ex ey)) with (Z.min ex ey) by lia.
  replace (Z.min ey (Z.min ex ey)) with (Z.min ex ey) by lia.
  reflexivity.
Qed.

Lemma add_valid mx ex y :
  bounded prec emax mx ex = true -> valid y = true -> is_nonneg y = true ->
  valid (add (S754_finite false mx ex) y) = true.
Proof.
  intros Vx Vy Ny. destruct y as [s|[]| |[] my ey]; try discriminate; try assumption.
  destruct (add_fin mx ex my ey) as (a & -> & _). apply binary_round_valid; assumption.
Qed.

Lemma add_ge mx ex y :
  bounded prec emax mx ex = true -> valid y = true -> is_nonneg y = true ->
  SFleb (S754_finite false mx ex) (add (S754_finite false mx ex) y) = true.
Proof.
  intros Vx Vy Ny. destruct y as [s|[]| |[] my ey]; try discriminate.
  - apply SFleb_refl_fin.
  - reflexivity.
  - destruct (add_fin mx ex my ey) as (a & -> & Ha).
    rewrite <- (round_exact mx ex Vx).
    rewrite binary_round_spec.
    destruct (aligned_props a (Z.min ex ey)) as (A1 & A2 & A3 & A4).
    apply round_le; try assumption; try lia.
    + destruct (bounded_canonical mx ex Vx) as [Hc _]. lia.
    + set (c := snd (aligned prec emax a (Z.min ex ey))) in *.
      apply (dle_alt c); [lia | lia |].
      rewrite Z.sub_diag, Z.mul_1_r, A4, Ha.
      pose proof (pow2_pos (ex - Z.min ex ey) ltac:(lia)).
      pose proof (pow2_pos (ey - Z.min ex ey) ltac:(lia)).
      pose proof (pow2_pos (Z.min ex ey - c) ltac:(lia)).
      replace (ex - c) with ((ex - Z.min ex ey) + (Z.min ex ey - c)) by lia.
      rewrite Z.pow_add_r by lia. nia.
Qed.

Lemma add_mono mx ex y1 y2 :
  bounded prec emax mx ex = true ->
  valid y1 = true -> valid y2 = true ->
  is_nonneg y1 = true -> is_nonneg y2 = true ->
  SFleb y1 y2 = true ->
  SFleb (add (S754_finite false mx ex) y1) (add (S754_finite false mx ex) y2) = true.
Proof.
  intros Vx V1 V2 N1 N2 Hle.
  destruct y1 as [s1|[]| |[] m1 e1]; try discriminate.
  - (* y1 = 0 *) change (add (S754_finite false mx ex) (S754_zero s1)) with (S754_finite false mx ex).
    apply add_ge; assumption.
  - (* y1 = inf *) destruct y2 as [s2|[]| |[] m2 e2]; try discriminate. reflexivity.
  - destruct y2 as [s2|[]| |[] m2 e2]; try discriminate.
    + change (add (S754_finite false mx ex) (S754_infinity false)) with (S754_infinity false).
      apply SFleb_nonneg_inf.
      destruct (add_fin mx ex m1 e1) as (a & -> & _). apply binary_round_nonneg; assumption.
    + destruct (add_fin mx ex m1 e1) as (a1 & -> & Ha1).
      destruct (add_fin mx ex m2 e2) as (a2 & -> & Ha2).
      apply binary_round_mono; try assumption.
      pose proof (SFleb_dle _ _ _ _ V1 V2 Hle) as D.
      set (z1 := Z.min ex e1) in *. set (z2 := Z.min ex e2) in *.
      set (c := Z.min z1 z2).
      apply (dle_alt c) in D; [|unfold c, z1, z2; lia..].
      apply (dle_alt c); [unfold c; lia..|].
      rewrite Ha1, Ha2. rewrite !Z.mul_add_distr_r.
      rewrite <- !Z.mul_assoc, <- !Z.pow_add_r by (unfold c, z1, z2; lia).
      replace (ex - z1 + (z1 - c)) with (ex - c) by lia.
      replace (ex - z2 + (z2 - c)) with (ex - c) by lia.
      replace (e1 - z1 + (z1 - c)) with (e1 - c) by lia.
      replace (e2 - z2 + (z2 - c)) with (e2 - c) by lia.
      lia.
Qed.

Lemma of_Z_mono a b :
  0 < a -> a <= b ->
  SFleb (binary_normalize prec emax a 0 false) (binary_normalize prec emax b 0 false) = true.
Proof.
  intros Ha Hab. destruct a as [|pa|pa]; try lia. destruct b as [|pb|pb]; try lia.
  cbn [binary_normalize]. apply binary_round_mono; try assumption.
  unfold dle. rewrite Z.min_id, Z.sub_diag. lia.
Qed.

Lemma of_Z_valid a : valid (binary_normalize prec emax a 0 false) = true.
Proof.
  destruct a; cbn [binary_normalize]; try reflexivity; apply binary_round_valid; assumption.
Qed.

(** *** Clipping to [[0, hi]] and truncating *)

Section Clip.

Variables (mh : positive) (eh : Z).
Hypothesis Hhi : bounded prec emax mh eh = true.

Local Abbreviation lo := (S754_zero false).
Local Abbreviation hi := (S754_finite false mh eh).

Lemma trunc_me_nonneg m e : 0 <= m -> 0 <= trunc_me m e.
Proof.
  intros Hm. unfold trunc_me. destruct (0 <=? e) eqn:He.
  - apply Z.leb_le in He. pose proof (pow2_pos e He). nia.
  - apply Z.leb_gt in He. apply Z.div_pos; [lia | apply pow2_pos; lia].
Qed.

Lemma SFltb_SFleb x y : SFltb x y = true -> SFleb x y = true.
Proof. unfold SFltb, SFleb. destruct (SFcompare x y) as [[]|]; congruence. Qed.

Lemma trunc_le_hi m e :
  bounded prec emax m e = true ->
  SFleb (S754_finite false m e) hi = true ->
  0 <= trunc_me (Zpos m) e <= trunc_me (Zpos mh) eh.
Proof.
  intros Hb Hle. apply trunc_me_mono; [lia|].
  apply SFleb_dle; assumption.
Qed.

Lemma clip_trunc_range x :
  valid x = true -> is_nan x = false ->
  exists z, SFtrunc (np_clip x lo hi) = Some z /\ 0 <= z <= trunc_me (Zpos mh) eh.
Proof.
  intros Vx Hn.
  pose proof (trunc_me_nonneg (Zpos mh) eh ltac:(lia)) as Hh.
  destruct x as [s|[]| |[] m e]; try discriminate; unfold np_clip, np_max, np_min; simpl.
  - exists 0. split; [reflexivity | lia].
  - exists 0. split; [reflexivity | lia].
  - exists (trunc_me (Zpos mh) eh). split; [reflexivity | lia].
  - exists 0. split; [reflexivity | lia].
  - change (SFltb lo (S754_finite false m e)) with true. cbv iota.
    destruct (SFltb (S754_finite false m e) hi) eqn:Hlt.
    + exists (trunc_me (Zpos m) e). split; [reflexivity|].
      apply trunc_le_hi; [exact Vx | apply SFltb_SFleb; exact Hlt].
    + exists (trunc_me (Zpos mh) eh). split; [reflexivity | lia].
Qed.

Lemma clip_trunc_mono x1 x2 :
  valid x1 = true -> valid x2 = true ->
  is_nonneg x1 = true -> is_nonneg x2 = true ->
  SFleb x1 x2 = true ->
  exists z1 z2,
    SFtrunc (np_clip x1 lo hi) = Some z1 /\
    SFtrunc (np_clip x2 lo hi) = Some z2 /\
    0 <= z1 <= z2.
Proof.
  intros V1 V2 N1 N2 Hle.
  pose proof (trunc_me_nonneg (Zpos mh) eh ltac:(lia)) as Hh.
  destruct (clip_trunc_range x2 V2) as (z2 & Hz2 & Hr2).
  { destruct x2 as [s|[]| |[] m e]; try discriminate; reflexivity. }
  destruct x1 as [s1|[]| |[] m1 e1]; try discriminate.
  - exists 0, z2. split; [reflexivity|]. split; [exact Hz2 | lia].
  - destruct x2 as [s2|[]| |[] m2 e2]; try discriminate.
    exists (trunc_me (Zpos mh) eh), (trunc_me (Zpos mh) eh).
    repeat split; try reflexivity; lia.
  - destruct x2 as [s2|[]| |[] m2 e2]; try discriminate.
    + (* x2 = +inf: clipped to hi *)
      destruct (clip_trunc_range (S754_finite false m1 e1) V1 eq_refl) as (z1 & Hz1 & Hr1).
      exists z1, (trunc_me (Zpos mh) eh). split; [exact Hz1|].
      split; [reflexivity | lia].
    + unfold np_clip, np_max, np_min in *. simpl in *.
      change (SFltb lo (S754_finite false m1 e1)) with true.
      change (SFltb lo (S754_finite false m2 e2)) with true in Hz2. cbv iota in *.
      destruct (SFltb (S754_finite false m2 e2) hi) eqn:H2.
      * assert (H1 : SFltb (S754_finite false m1 e1) hi = true).
        { apply SFltb_fin. apply SFltb_fin in H2. apply SFleb_fin in Hle. lia. }
        rewrite H1. exists (trunc_me (Zpos m1) e1), (trunc_me (Zpos m2) e2).
        split; [reflexivity|]. split; [reflexivity|].
        apply trunc_me_mono; [lia|]. apply SFleb_dle; assumption.
      * destruct (SFltb (S754_finite false m1 e1) hi) eqn:H1.
        -- exists (trunc_me (Zpos m1) e1), (trunc_me (Zpos mh) eh).
           split; [reflexivity|]. split; [reflexivity|].
           apply trunc_le_hi; [exact V1 | apply SFltb_SFleb; exact H1].
        -- exists (trunc_me (Zpos mh) eh), (trunc_me (Zpos mh) eh).
           repeat split; try reflexivity; lia.
Qed.

(** The code's clip-and-cast and the specification's clamp-and-truncate
    give one integer, and the cast never wraps. *)
Lemma clip_astype_spec x :
  valid x = true -> trunc_me (Zpos mh) eh <= 255 ->
  astype_uint8 (np_clip x lo hi) = spec_truncate (spec_clamp x lo hi) /\
  0 <= astype_uint8 (np_clip x lo hi) <= 255.
Proof.
  intros Vx H255.
  pose proof (trunc_me_nonneg (Zpos mh) eh ltac:(lia)) as Hh.
  destruct x as [s|[]| |[] m e];
    unfold astype_uint8, spec_truncate, spec_clamp, np_clip, np_max, np_min; simpl;
    try (change (0 mod 256) with 0; split; [reflexivity | lia]).
  - rewrite Z.mod_small by lia. split; [reflexivity | lia].
  -     destruct (SFltb (S754_finite false m e) hi) eqn:H1;
    destruct (SFltb hi (S754_finite false m e)) eqn:H2; simpl.
    + apply SFltb_fin in H1. apply SFltb_fin in H2. lia.
    + pose proof (trunc_le_hi m e Vx (SFltb_SFleb _ _ H1)).
      rewrite Z.mod_small by lia. split; [reflexivity | lia].
    + rewrite Z.mod_small by lia. split; [reflexivity | lia].
    + assert (Heq : e = eh /\ Zpos m = Zpos mh).
      { destruct (Z.lt_trichotomy e eh) as [Hl|[He|Hg]].
        - assert (SFltb (S754_finite false m e) hi = true) by (apply SFltb_fin; lia). congruence.
        - destruct (Z.lt_trichotomy (Zpos m) (Zpos mh)) as [Hl|[He'|Hg]]; [|lia|].
          + assert (SFltb (S754_finite false m e) hi = true) by (apply SFltb_fin; lia). congruence.
          + assert (SFltb hi (S754_finite false m e) = true) by (apply SFltb_fin; lia). congruence.
        - assert (SFltb hi (S754_finite false m e) = true) by (apply SFltb_fin; lia). congruence. }
      destruct Heq as [-> Hm]. injection Hm as ->.
      rewrite Z.mod_small by lia. split; [reflexivity | lia].
Qed.

End Clip.

End FloatTheory.

(** ** Binary64 and binary32 instances *)

Lemma F64_prec_pos : 0 < F64.prec.
Proof. reflexivity. Qed.

Lemma F64_prec_emax : F64.prec < F64.emax.
Proof. reflexivity. Qed.

Lemma F32_prec_pos : 0 < F32.prec.
Proof. reflexivity. Qed.

Lemma F32_prec_emax : F32.prec < F32.emax.
Proof. reflexivity. Qed.

Lemma F64_of_Z_0 : F64.of_Z 0 = S754_zero false.
Proof. reflexivity. Qed.

Lemma F64_of_Z_1 : F64.of_Z 1 = S754_finite false 4503599627370496 (-52).
Proof. vm_compute. reflexivity. Qed.

Lemma F64_of_Z_255 : F64.of_Z 255 = S754_finite false 8972014882652160 (-45).
Proof. vm_compute. reflexivity. Qed.

Lemma F32_of_Z_0 : F32.of_Z 0 = S754_zero false.
Proof. reflexivity. Qed.

Lemma F32_of_Z_255 : F32.of_Z 255 = S754_finite false 16711680 (-16).
Proof. vm_compute. reflexivity. Qed.

Lemma F64_of_Z_valid z : F64.valid (F64.of_Z z) = true.
Proof. apply (of_Z_valid F64.prec F64.emax F64_prec_pos F64_prec_emax). Qed.

Lemma F64_mul_valid x y :
  F64.valid x = true -> F64.valid y = true -> F64.valid (F64.mul x y) = true.
Proof. apply (mul_valid F64.prec F64.emax F64_prec_pos F64_prec_emax). Qed.

Lemma F32_mul_valid x y :
  F32.valid x = true -> F32.valid y = true -> F32.valid (F32.mul x y) = true.
Proof. apply (mul_valid F32.prec F32.emax F32_prec_pos F32_prec_emax). Qed.

Lemma F64_add_valid x y :
  F64.valid x = true -> F64.valid y = true -> F64.valid (F64.add x y) = true.
Proof.
  unfold F64.valid, F64.add.
  destruct x as [sx|sx| |sx mx ex], y as [sy|sy| |sy my ey]; intros Vx Vy;
    try reflexivity; try assumption;
    try (destruct sx, sy; reflexivity).
  cbn [SFadd]. unfold binary_normalize.
  destruct (_ + _); try reflexivity;
    apply (binary_round_valid F64.prec F64.emax F64_prec_pos F64_prec_emax).
Qed.

Lemma SFltb_zero_pos x : SFltb (S754_zero false) x = true -> is_pos x = true.
Proof. destruct x as [s|[]| |[] m e]; simpl; intros; try discriminate; reflexivity. Qed.

Lemma SFleb_refl_pos x : is_pos x = true -> SFleb x x = true.
Proof.
  destruct x as [s|[]| |[] m e]; simpl; intros; try discriminate.
  - reflexivity.
  - apply SFleb_refl_fin.
Qed.

Lemma is_pos_nonneg x : is_pos x = true -> is_nonneg x = true.
Proof. destruct x as [s|[]| |[] m e]; simpl; intros; try discriminate; reflexivity. Qed.

(** Every positive integer converts to a positive float. *)
Lemma F64_of_Z_pos z : 1 <= z -> is_pos (F64.of_Z z) = true.
Proof.
  intros Hz. apply (SFleb_pos_l (F64.of_Z 1)).
  - rewrite F64_of_Z_1. reflexivity.
  - apply (of_Z_mono F64.prec F64.emax F64_prec_pos F64_prec_emax); lia.
Qed.

(** ** One channel value of [increase_exposure] *)
Lemma pxmap_pxmap {A B C} (f : A -> B) (g : B -> C) (p : pixel A) :
  pxmap g (pxmap f p) = pxmap (fun x => g (f x)) p.
Proof. destruct p as [[b g'] r]. reflexivity. Qed.

Lemma ndmap_ndmap {A B C} (f : A -> B) (g : B -> C) (a : ndarray A) :
  ndmap g (ndmap f a) = ndmap (fun x => g (f x)) a.
Proof.
  unfold ndmap. rewrite map_map. apply map_ext. intros row.
  rewrite map_map. apply map_ext. intros p. apply pxmap_pxmap.
Qed.

Lemma ndmap_ext_all {A B} (P : A -> Prop) (f g : A -> B) (a : ndarray A) :
  (forall x, P x -> f x = g x) -> nd_all P a -> ndmap f a = ndmap g a.
Proof.
  intros Hfg Ha. unfold ndmap, nd_all in *.
  induction Ha as [|row rows Hrow _ IH]; [reflexivity|].
  cbn [map]. f_equal; [|exact IH].
  induction Hrow as [|p ps Hp _ IHp]; [reflexivity|].
  cbn [map]. f_equal; [|exact IHp].
  destruct p as [[b g'] r]. destruct Hp as (Hb & Hg & Hr).
  unfold pxmap. rewrite (Hfg b Hb), (Hfg g' Hg), (Hfg r Hr). reflexivity.
Qed.

Lemma nd_all_ndmap {A B} (P : B -> Prop) (f : A -> B) (a : ndarray A) :
  nd_all (fun x => P (f x)) a -> nd_all P (ndmap f a).
Proof.
  unfold nd_all, ndmap. intros Ha.
  induction Ha as [|row rows Hrow _ IH]; cbn [map]; constructor; [|exact IH].
  induction Hrow as [|p ps Hp _ IHp]; cbn [map]; constructor; [|exact IHp].
  destruct p as [[b g] r]. exact Hp.
Qed.

Lemma nd_all_impl {A} (P Q : A -> Prop) (a : ndarray A) :
  (forall x, P x -> Q x) -> nd_all P a -> nd_all Q a.
Proof.
  intros HPQ Ha. unfold nd_all in *.
  eapply Forall_impl; [exact Ha|]. intros row Hrow.
  eapply Forall_impl; [exact Hrow|]. intros [[b g] r] (Hb & Hg & Hr).
  repeat split; auto.
Qed.

Lemma nd_all_true {A} (P : A -> Prop) (a : ndarray A) :
  (forall x, P x) -> nd_all P a.
Proof.
  intros HP. unfold nd_all. apply Forall_forall. intros row _.
  apply Forall_forall. intros [[b g] r] _. repeat split; apply HP.
Qed.

(** Two element-wise images of one array are related channel by channel. *)
Lemma nd_rel_ndmap {A B C} (P : A -> Prop) (R : B -> C -> Prop)
    (f : A -> B) (g : A -> C) (a : ndarray A) :
  (forall x, P x -> R (f x) (g x)) -> nd_all P a -> nd_rel R (ndmap f a) (ndmap g a).
Proof.
  intros HR Ha. unfold nd_rel, nd_all, ndmap in *.
  induction Ha as [|row rows Hrow _ IH]; cbn [map]; constructor; [|exact IH].
  induction Hrow as [|p ps Hp _ IHp]; cbn [map]; constructor; [|exact IHp].
  destruct p as [[b g'] r]. destruct Hp as (Hb & Hg & Hr).
  repeat split; apply HR; assumption.
Qed.

Lemma increase_exposure_pointwise img factor :
  increase_exposure img factor = ndmap (fun v => exposed v factor) img.
Proof.
  unfold increase_exposure, np_mul_f64. rewrite !ndmap_ndmap. reflexivity.
Qed.

Lemma F64_255_bounded : bounded F64.prec F64.emax 8972014882652160 (-45) = true.
Proof. vm_compute. reflexivity. Qed.

Lemma F64_255_trunc : trunc_me (Zpos 8972014882652160) (-45) = 255.
Proof. vm_compute. reflexivity. Qed.

Lemma F32_255_bounded : bounded F32.prec F32.emax 16711680 (-16) = true.
Proof. vm_compute. reflexivity. Qed.

Lemma F32_255_trunc : trunc_me (Zpos 16711680) (-16) = 255.
Proof. vm_compute. reflexivity. Qed.

(** The clip-and-cast of a binary64 number is the specification's
    clamp-and-truncate, within the 8-bit range. *)
Lemma clip_cast_f64 x :
  F64.valid x = true ->
  astype_uint8 (np_clip x (F64.of_Z 0) (F64.of_Z 255)) =
    spec_truncate (spec_clamp x (F64.of_Z 0) (F64.of_Z 255)) /\
  0 <= astype_uint8 (np_clip x (F64.of_Z 0) (F64.of_Z 255)) <= 255.
Proof.
  intros Vx. rewrite F64_of_Z_0, F64_of_Z_255.
  apply (clip_astype_spec F64.prec F64.emax F64_prec_pos _ _ F64_255_bounded x Vx).
  rewrite F64_255_trunc. lia.
Qed.

Lemma clip_cast_f32 x :
  F32.valid x = true ->
  astype_uint8 (np_clip x (F32.of_Z 0) (F32.of_Z 255)) =
    spec_truncate (spec_clamp x (F32.of_Z 0) (F32.of_Z 255)) /\
  0 <= astype_uint8 (np_clip x (F32.of_Z 0) (F32.of_Z 255)) <= 255.
Proof.
  intros Vx. rewrite F32_of_Z_0, F32_of_Z_255.
  apply (clip_astype_spec F32.prec F32.emax F32_prec_pos _ _ F32_255_bounded x Vx).
  rewrite F32_255_trunc. lia.
Qed.

Lemma exposed_range v factor :
  F64.valid factor = true -> 0 <= exposed v factor <= 255.
Proof.
  intros Vf. unfold exposed.
  apply clip_cast_f64, F64_mul_valid; [apply F64_of_Z_valid | exact Vf].
Qed.

Lemma exposed_zero factor : is_pos factor = true -> exposed 0 factor = 0.
Proof.
  destruct factor as [s|[]| |[] m e]; intros Hp; try discriminate; reflexivity.
Qed.

(** A brighter factor never darkens a channel. *)
Lemma exposed_mono v f1 f2 :
  0 <= v ->
  F64.valid f1 = true -> F64.valid f2 = true ->
  is_pos f1 = true -> SFleb f1 f2 = true ->
  exposed v f1 <= exposed v f2.
Proof.
  intros Hv V1 V2 P1 Hle.
  pose proof (SFleb_pos_l _ _ P1 Hle) as P2.
  destruct (Z.eq_dec v 0) as [->|Hv0].
  - rewrite !exposed_zero by assumption. lia.
  - assert (Pv : is_pos (F64.of_Z v) = true) by (apply F64_of_Z_pos; lia).
    pose proof (F64_of_Z_valid v) as Vv.
    assert (Hm : SFleb (F64.mul (F64.of_Z v) f1) (F64.mul (F64.of_Z v) f2) = true).
    { apply (mul_mono F64.prec F64.emax F64_prec_pos F64_prec_emax); try assumption.
      apply SFleb_refl_pos; exact Pv. }
    pose proof (F64_mul_valid _ _ Vv V1) as Vm1.
    pose proof (F64_mul_valid _ _ Vv V2) as Vm2.
    pose proof (mul_nonneg F64.prec F64.emax F64_prec_pos F64_prec_emax _ _ Vv V1 Pv P1) as N1.
    pose proof (mul_nonneg F64.prec F64.emax F64_prec_pos F64_prec_emax _ _ Vv V2 Pv P2) as N2.
    destruct (clip_trunc_mono F64.prec F64.emax F64_prec_pos _ _ F64_255_bounded
                _ _ Vm1 Vm2 N1 N2 Hm) as (z1 & z2 & H1 & H2 & Hz).
    destruct (clip_trunc_range F64.prec F64.emax F64_prec_pos _ _ F64_255_bounded
                (F64.mul (F64.of_Z v) f2) Vm2) as (z2' & H2' & Hr).
    { destruct (F64.mul (F64.of_Z v) f2) as [s|[]| |[] m e]; try discriminate; reflexivity. }
    rewrite F64_255_trunc in Hr.
    unfold exposed, astype_uint8. rewrite F64_of_Z_0, F64_of_Z_255.
    fold F64.mul in *. rewrite H1, H2.
    assert (z2' = z2) by congruence. subst z2'.
    rewrite !Z.mod_small by lia. lia.
Qed.

(** ** The exposure factors [1 + i * step] *)

Lemma F64_1_bounded : bounded F64.prec F64.emax 4503599627370496 (-52) = true.
Proof. vm_compute. reflexivity. Qed.

Lemma step_product_props i s :
  1 <= i -> F64.valid s = true -> is_pos s = true ->
  F64.valid (F64.mul (F64.of_Z i) s) = true /\
  is_nonneg (F64.mul (F64.of_Z i) s) = true.
Proof.
  intros Hi Vs Ps. split.
  - apply F64_mul_valid; [apply F64_of_Z_valid | exact Vs].
  - apply (mul_nonneg F64.prec F64.emax F64_prec_pos F64_prec_emax);
      [apply F64_of_Z_valid | exact Vs | apply F64_of_Z_pos; exact Hi | exact Ps].
Qed.

Lemma exposure_factor_props i s :
  1 <= i -> F64.valid s = true -> is_pos s = true ->
  F64.valid (exposure_factor i s) = true /\
  SFleb (F64.of_Z 1) (exposure_factor i s) = true /\
  is_pos (exposure_factor i s) = true.
Proof.
  intros Hi Vs Ps. destruct (step_product_props i s Hi Vs Ps) as [Vp Np].
  assert (Hge : SFleb (F64.of_Z 1) (exposure_factor i s) = true).
  { unfold exposure_factor. rewrite F64_of_Z_1.
    apply (add_ge F64.prec F64.emax F64_prec_pos F64_prec_emax _ _ _ F64_1_bounded Vp Np). }
  split; [|split; [exact Hge|]].
  - unfold exposure_factor. rewrite F64_of_Z_1.
    apply (add_valid F64.prec F64.emax F64_prec_pos F64_prec_emax _ _ _ F64_1_bounded Vp Np).
  - apply (SFleb_pos_l (F64.of_Z 1)); [rewrite F64_of_Z_1; reflexivity | exact Hge].
Qed.

(** The factors grow (weakly, once rounded) with the index. *)
Lemma exposure_factor_mono i j s :
  1 <= i -> i <= j -> F64.valid s = true -> is_pos s = true ->
  SFleb (exposure_factor i s) (exposure_factor j s) = true.
Proof.
  intros Hi Hij Vs Ps.
  destruct (step_product_props i s Hi Vs Ps) as [Vpi Npi].
  destruct (step_product_props j s ltac:(lia) Vs Ps) as [Vpj Npj].
  unfold exposure_factor. rewrite F64_of_Z_1.
  apply (add_mono F64.prec F64.emax F64_prec_pos F64_prec_emax _ _ _ _ F64_1_bounded
           Vpi Vpj Npi Npj).
  apply (mul_mono F64.prec F64.emax F64_prec_pos F64_prec_emax);
    try apply F64_of_Z_valid; try assumption.
  - apply F64_of_Z_pos; exact Hi.
  - apply (of_Z_mono F64.prec F64.emax F64_prec_pos F64_prec_emax); lia.
  - apply SFleb_refl_pos; exact Ps.
Qed.

(** ** The loop of [generate_exposure_images] *)

Lemma fold_left_append_map {A B} (f : A -> B) (l : list A) (acc : list B) :
  fold_left (fun images i => images ++ [f i]) l acc = acc ++ map f l.
Proof.
  revert acc. induction l as [|x l IH]; intros acc; cbn [fold_left map].
  - rewrite app_nil_r. reflexivity.
  - rewrite IH, <- app_assoc. reflexivity.
Qed.

Lemma generate_exposure_images_map img num_images exposure_step :
  generate_exposure_images img num_images exposure_step =
  map (fun i => increase_exposure img (exposure_factor i exposure_step))
      (py_range 1 (num_images + 1)).
Proof.
  unfold generate_exposure_images. rewrite fold_left_append_map. reflexivity.
Qed.

Lemma py_range_length lo hi : length (py_range lo hi) = Z.to_nat (hi - lo).
Proof. unfold py_range. rewrite length_map, length_seq. reflexivity. Qed.

Lemma py_range_lookup lo hi (k : nat) :
  (k < Z.to_nat (hi - lo))%nat -> py_range lo hi !! k = Some (lo + Z.of_nat k).
Proof.
  intros Hk. unfold py_range. rewrite list_lookup_fmap.
  rewrite lookup_seq_lt by exact Hk. reflexivity.
Qed.

Lemma generate_exposure_images_length img num_images exposure_step :
  length (generate_exposure_images img num_images exposure_step) = Z.to_nat num_images.
Proof.
  rewrite generate_exposure_images_map, length_map, py_range_length. f_equal. lia.
Qed.

(** The [i]-th image, counted from 1, is the source exposed by
    [1 + i * step]. *)
Lemma generate_exposure_images_lookup img num_images exposure_step i :
  1 <= i <= num_images ->
  generate_exposure_images img num_images exposure_step !! Z.to_nat (i - 1) =
  Some (increase_exposure img (exposure_factor i exposure_step)).
Proof.
  intros Hi. rewrite generate_exposure_images_map, list_lookup_fmap.
  rewrite py_range_lookup by lia. cbn [fmap option_fmap option_map].
  do 3 f_equal. lia.
Qed.

Lemma exposed_spec v i s :
  F64.valid s = true -> exposed v (exposure_factor i s) = spec_exposure v i s.
Proof.
  intros Vs. unfold exposed, spec_exposure, exposure_factor.
  apply clip_cast_f64. apply F64_mul_valid; [apply F64_of_Z_valid|].
  apply F64_add_valid; [apply F64_of_Z_valid|].
  apply F64_mul_valid; [apply F64_of_Z_valid | exact Vs].
Qed.

(** After the clip the cast has nothing to wrap: the low byte is the
    whole integer part. *)
Lemma clip_no_wrap_f64 x :
  F64.valid x = true ->
  astype_uint8 (np_clip x (F64.of_Z 0) (F64.of_Z 255)) =
  spec_truncate (np_clip x (F64.of_Z 0) (F64.of_Z 255)).
Proof.
  intros Vx. destruct (is_nan x) eqn:Hn.
  - destruct x; try discriminate. reflexivity.
  - rewrite F64_of_Z_0, F64_of_Z_255.
    destruct (clip_trunc_range F64.prec F64.emax F64_prec_pos _ _ F64_255_bounded x Vx Hn)
      as (z & Hz & Hr).
    rewrite F64_255_trunc in Hr.
    unfold astype_uint8, spec_truncate. rewrite Hz. apply Z.mod_small. lia.
Qed.

(** A brighter positive factor darkens no channel of a valid image. *)
Lemma increase_exposure_le (img : image) (f1 f2 : spec_float) :
  valid_image img ->
  F64.valid f1 = true -> F64.valid f2 = true ->
  is_pos f1 = true -> SFleb f1 f2 = true ->
  nd_rel Z.le (increase_exposure img f1) (increase_exposure img f2).
Proof.
  intros Himg V1 V2 P1 H12. rewrite !increase_exposure_pointwise.
  apply (nd_rel_ndmap is_uint8); [|exact Himg].
  intros v [Hv _]. apply exposed_mono; assumption.
Qed.

Lemma increase_exposure_uint8 (img : image) (factor : spec_float) :
  F64.valid factor = true -> nd_all is_uint8 (increase_exposure img factor).
Proof.
  intros Vf. rewrite increase_exposure_pointwise.
  apply nd_all_ndmap, nd_all_true. intros v. apply exposed_range; exact Vf.
Qed.

Lemma SFleb_not_SFltb x mh eh :
  SFleb (S754_finite false mh eh) x = true ->
  is_nan x = false /\ SFltb (S754_zero false) x = true /\
  SFltb x (S754_finite false mh eh) = false.
Proof.
  intros Hle. destruct x as [s|[]| |[] m e]; try discriminate; repeat split.
  destruct (SFltb (S754_finite false m e) (S754_finite false mh eh)) eqn:Hlt; [|reflexivity].
  apply SFleb_fin in Hle. apply SFltb_fin in Hlt. lia.
Qed.

(** A product of 255 or more saturates: the channel is 255, not the low
    byte of the product. *)
Lemma exposed_saturated v factor :
  SFleb (F64.of_Z 255) (F64.mul (F64.of_Z v) factor) = true ->
  exposed v factor = 255.
Proof.
  intros Hle. unfold exposed. rewrite F64_of_Z_0.
  rewrite F64_of_Z_255 in Hle. rewrite (F64_of_Z_255).
  destruct (SFleb_not_SFltb _ _ _ Hle) as (Hn & H0 & H255).
  unfold np_clip, np_max, np_min. rewrite Hn, H0, Hn, H255. reflexivity.
Qed.

Lemma nd_rel_ndmap_r {A B} (R : A -> B -> Prop) (f : A -> B) (a : ndarray A) :
  (forall x, R x (f x)) -> nd_rel R a (ndmap f a).
Proof.
  intros HR. unfold nd_rel, ndmap.
  induction a as [|row rows IH]; cbn [map]; constructor; [|exact IH].
  induction row as [|p ps IHp]; cbn [map]; constructor; [|exact IHp].
  destruct p as [[b g] r]. repeat split; apply HR.
Qed.

(** * The claims *)

(** C1. For every 8-bit 3-channel image, every count [N >= 1] and every
    step [s > 0], [generate_exposure_images image N s] is a sequence of
    [N] images whose [i]-th image (counted from 1) is, per pixel and per
    channel, [clamp(source * (1 + i*s), 0, 255)] truncated to integer. *)
Theorem C1_exposure_sequence (img : image) (N : Z) (s : spec_float) :
  F64.valid s = true ->
  1 <= N ->
  SFltb (F64.of_Z 0) s = true ->
  length (generate_exposure_images img N s) = Z.to_nat N /\
  forall i, 1 <= i <= N ->
    generate_exposure_images img N s !! Z.to_nat (i - 1) =
    Some (ndmap (fun v => spec_exposure v i s) img).
Proof.
  intros Vs HN Hs. split.
  - apply generate_exposure_images_length.
  - intros i Hi. rewrite generate_exposure_images_lookup by exact Hi.
    f_equal. rewrite increase_exposure_pointwise.
    apply (ndmap_ext_all (fun _ => True)); [|apply nd_all_true; exact (fun _ => I)].
    intros v _. apply exposed_spec; exact Vs.
Qed.

Lemma C1_exposure_sequence_witness :
  length (generate_exposure_images [[(0, 1, 100); (200, 255, 7)]] 3 default_exposure_step)
    = Z.to_nat 3 /\
  forall i, 1 <= i <= 3 ->
    generate_exposure_images [[(0, 1, 100); (200, 255, 7)]] 3 default_exposure_step
      !! Z.to_nat (i - 1) =
    Some (ndmap (fun v => spec_exposure v i default_exposure_step)
            [[(0, 1, 100); (200, 255, 7)]]).
Proof.
  apply (C1_exposure_sequence [[(0, 1, 100); (200, 255, 7)]] 3 default_exposure_step).
  - reflexivity.
  - lia.
  - reflexivity.
Defined.

(** C3. For every valid 8-bit image and factors [1 <= f1 <= f2],
    [increase_exposure] is pixel-wise non-decreasing in the factor, and
    every channel value of the result lies in [[0, 255]]. *)
Theorem C3_increase_exposure_monotone (img : image) (f1 f2 : spec_float) :
  valid_image img ->
  F64.valid f1 = true -> F64.valid f2 = true ->
  SFleb (F64.of_Z 1) f1 = true ->
  SFleb f1 f2 = true ->
  nd_rel Z.le (increase_exposure img f1) (increase_exposure img f2) /\
  nd_all is_uint8 (increase_exposure img f1) /\
  nd_all is_uint8 (increase_exposure img f2).
Proof.
  intros Himg V1 V2 H1 H12. split; [|split].
  - apply increase_exposure_le; try assumption.
    apply (SFleb_pos_l (F64.of_Z 1)); [rewrite F64_of_Z_1; reflexivity | exact H1].
  - apply increase_exposure_uint8; exact V1.
  - apply increase_exposure_uint8; exact V2.
Qed.

Lemma C3_increase_exposure_monotone_witness :
  nd_rel Z.le
    (increase_exposure [[(0, 1, 100); (200, 255, 7)]] (exposure_factor 1 default_exposure_step))
    (increase_exposure [[(0, 1, 100); (200, 255, 7)]] (exposure_factor 9 default_exposure_step)) /\
  nd_all is_uint8
    (increase_exposure [[(0, 1, 100); (200, 255, 7)]] (exposure_factor 1 default_exposure_step)) /\
  nd_all is_uint8
    (increase_exposure [[(0, 1, 100); (200, 255, 7)]] (exposure_factor 9 default_exposure_step)).
Proof.
  apply (C3_increase_exposure_monotone [[(0, 1, 100); (200, 255, 7)]]
           (exposure_factor 1 default_exposure_step)
           (exposure_factor 9 default_exposure_step)).
  - repeat constructor; unfold is_uint8; lia.
  - reflexivity.
  - reflexivity.
  - reflexivity.
  - reflexivity.
Defined.

(** C4, as stated, fails: with the default step a black channel (0)
    stays 0 and a channel of value 1 stays 1 from the first image to the
    second, neither strictly brighter nor saturated. *)
Lemma C4_strictly_brighter_counterexample :
  exists a b,
    generate_exposure_images [[(0, 1, 100)]] 2 default_exposure_step !! 0%nat = Some a /\
    generate_exposure_images [[(0, 1, 100)]] 2 default_exposure_step !! 1%nat = Some b /\
    a = [[(0, 1, 110)]] /\ b = [[(0, 1, 120)]] /\
    ~ nd_rel brighter_or_saturated a b.
Proof.
  exists [[(0, 1, 110)]], [[(0, 1, 120)]].
  repeat split; try reflexivity.
  intros H. inversion H as [|? ? ? ? Hrow _]; subst.
  inversion Hrow as [|? ? ? ? Hpx _]; subst.
  destruct Hpx as ([Hlt | [Hsat _]] & _); lia.
Qed.

(** C4, amended. [generate_exposure_images I N s] returns exactly [N]
    images and, for [s > 0] and every [i] from 2 to [N], image [i] is
    pixel-wise at least as bright as image [i-1]: no channel decreases. *)
Theorem C4_exposures_nondecreasing (img : image) (N : Z) (s : spec_float) :
  valid_image img ->
  F64.valid s = true ->
  1 <= N ->
  SFltb (F64.of_Z 0) s = true ->
  length (generate_exposure_images img N s) = Z.to_nat N /\
  forall i, 2 <= i <= N ->
    exists prev next,
      generate_exposure_images img N s !! Z.to_nat (i - 2) = Some prev /\
      generate_exposure_images img N s !! Z.to_nat (i - 1) = Some next /\
      nd_rel Z.le prev next.
Proof.
  intros Himg Vs HN Hs.
  assert (Ps : is_pos s = true) by (apply SFltb_zero_pos; rewrite <- F64_of_Z_0; exact Hs).
  split; [apply generate_exposure_images_length|].
  intros i Hi.
  exists (increase_exposure img (exposure_factor (i - 1) s)),
         (increase_exposure img (exposure_factor i s)).
  split; [|split].
  - replace (i - 2) with (i - 1 - 1) by lia.
    apply generate_exposure_images_lookup. lia.
  - apply generate_exposure_images_lookup. lia.
  - destruct (exposure_factor_props (i - 1) s ltac:(lia) Vs Ps) as (V1 & _ & P1).
    destruct (exposure_factor_props i s ltac:(lia) Vs Ps) as (V2 & _ & _).
    apply increase_exposure_le; try assumption.
    apply exposure_factor_mono; try assumption; lia.
Qed.

Lemma C4_exposures_nondecreasing_witness :
  length (generate_exposure_images [[(0, 1, 100); (200, 255, 7)]] 3 default_exposure_step)
    = Z.to_nat 3 /\
  forall i, 2 <= i <= 3 ->
    exists prev next,
      generate_exposure_images [[(0, 1, 100); (200, 255, 7)]] 3 default_exposure_step
        !! Z.to_nat (i - 2) = Some prev /\
      generate_exposure_images [[(0, 1, 100); (200, 255, 7)]] 3 default_exposure_step
        !! Z.to_nat (i - 1) = Some next /\
      nd_rel Z.le prev next.
Proof.
  apply (C4_exposures_nondecreasing [[(0, 1, 100); (200, 255, 7)]] 3 default_exposure_step).
  - repeat constructor; unfold is_uint8; lia.
  - reflexivity.
  - lia.
  - reflexivity.
Defined.

(** C9. For every image and every step,
    [generate_exposure_images I 0 s] is the empty list: a count of 0 is
    accepted and yields no exposure. *)
Theorem C9_zero_exposures (img : image) (s : spec_float) :
  generate_exposure_images img 0 s = [].
Proof. reflexivity. Qed.

(** C10. [increase_exposure] is total over all floating-point factors,
    also below 1 or negative: every channel value of the result lies in
    [[0, 255]], and it is the clamped product truncated, never a
    wrapped-around byte.  The result is, channel by channel, the integer
    part of [clamp(source * factor, 0, 255)]; in particular a product of
    255 or more gives 255. *)
Theorem C10_increase_exposure_total (img : image) (factor : spec_float) :
  F64.valid factor = true ->
  nd_all is_uint8 (increase_exposure img factor) /\
  increase_exposure img factor =
    ndmap (fun v => spec_truncate
                      (spec_clamp (F64.mul (F64.of_Z v) factor) (F64.of_Z 0) (F64.of_Z 255)))
          img /\
  nd_rel (fun v r => SFleb (F64.of_Z 255) (F64.mul (F64.of_Z v) factor) = true -> r = 255)
         img (increase_exposure img factor).
Proof.
  intros Vf. split; [|split].
  - apply increase_exposure_uint8; exact Vf.
  - rewrite increase_exposure_pointwise.
    apply (ndmap_ext_all (fun _ => True)); [|apply nd_all_true; exact (fun _ => I)].
    intros v _. unfold exposed.
    apply clip_cast_f64, F64_mul_valid; [apply F64_of_Z_valid | exact Vf].
  - rewrite increase_exposure_pointwise. apply nd_rel_ndmap_r.
    intros v Hv. apply exposed_saturated; exact Hv.
Qed.

Lemma C10_increase_exposure_total_witness :
  nd_all is_uint8
    (increase_exposure [[(0, 1, 100); (200, 255, 7)]]
       (S754_finite false 4503599627370496 (-51))) /\
  increase_exposure [[(0, 1, 100); (200, 255, 7)]]
    (S754_finite false 4503599627370496 (-51)) =
    ndmap (fun v => spec_truncate
                      (spec_clamp
                         (F64.mul (F64.of_Z v) (S754_finite false 4503599627370496 (-51)))
                         (F64.of_Z 0) (F64.of_Z 255)))
          [[(0, 1, 100); (200, 255, 7)]] /\
  nd_rel (fun v r =>
            SFleb (F64.of_Z 255)
                  (F64.mul (F64.of_Z v) (S754_finite false 4503599627370496 (-51))) = true ->
            r = 255)
         [[(0, 1, 100); (200, 255, 7)]]
         (increase_exposure [[(0, 1, 100); (200, 255, 7)]]
            (S754_finite false 4503599627370496 (-51))).
Proof.
  apply (C10_increase_exposure_total [[(0, 1, 100); (200, 255, 7)]]
           (S754_finite false 4503599627370496 (-51))).
  reflexivity.
Defined.

(** C5. The tone-mapping step turns the floating-point composite into
    8 bits by multiplying every value by 255, clamping to [[0, 255]] and
    truncating to integer. *)
Theorem C5_tone_map (hdr_image : ndarray spec_float) :
  nd_all (fun x => F32.valid x = true) hdr_image ->
  tone_map hdr_image = ndmap spec_tone hdr_image /\
  nd_all is_uint8 (tone_map hdr_image).
Proof.
  intros Hv. unfold tone_map. rewrite !ndmap_ndmap. split.
  - apply (ndmap_ext_all (fun x => F32.valid x = true)); [|exact Hv].
    intros x Vx. unfold spec_tone.
    apply clip_cast_f32, F32_mul_valid; [exact Vx|].
    rewrite F32_of_Z_255. reflexivity.
  - apply nd_all_ndmap. eapply nd_all_impl; [|exact Hv].
    intros x Vx. cbv beta.
    apply clip_cast_f32, F32_mul_valid; [exact Vx|].
    rewrite F32_of_Z_255. reflexivity.
Qed.

Lemma C5_tone_map_witness :
  tone_map [[(S754_finite false 8388608 (-24), S754_zero false, S754_finite false 12582912 (-23))]]
  = ndmap spec_tone
      [[(S754_finite false 8388608 (-24), S754_zero false, S754_finite false 12582912 (-23))]] /\
  nd_all is_uint8
    (tone_map
       [[(S754_finite false 8388608 (-24), S754_zero false, S754_finite false 12582912 (-23))]]).
Proof.
  apply (C5_tone_map
    [[(S754_finite false 8388608 (-24), S754_zero false, S754_finite false 12582912 (-23))]]).
  repeat constructor.
Defined.

(** ** The orchestrator, run *)

Section Orchestrator.

Context (cv : cv2).

Lemma load_image_run image_path w :
  load_image cv image_path w =
  match disk w !! image_path ≫= imdecode cv with
  | Some img => (Ok img, w)
  | None =>
      (Raise (FileNotFoundError ("Error: Could not load image from " +:+ image_path)), w)
  end.
Proof.
  unfold load_image. unfold mbind at 1. unfold M_bind, bind, cv2_imread.
  destruct (disk w !! image_path ≫= imdecode cv); reflexivity.
Qed.

Lemma save_image_run img output_path w :
  save_image cv img output_path w =
  match imencode cv output_path img with
  | Written bytes => (Ok tt, write_file output_path bytes w)
  | NotWritten => (Ok tt, w)
  | NoEncoder => (Raise cv2_error, w)
  end.
Proof.
  unfold save_image, cv2_imwrite, mbind, M_bind, bind, mret, M_ret, ret.
  destruct (imencode cv output_path img); reflexivity.
Qed.

(** When the file cannot be loaded the error is printed and [None]
    returned. *)
Lemma hdr_night_mode_not_loaded image_path num_images exposure_step output_path w :
  disk w !! image_path ≫= imdecode cv = None ->
  hdr_night_mode cv image_path num_images exposure_step output_path w =
  (Ok None, print_line ("Error: Could not load image from " +:+ image_path) w).
Proof.
  intros Hload.
  unfold hdr_night_mode, try_except_FileNotFoundError.
  unfold mbind at 1. unfold M_bind, bind.
  rewrite load_image_run, Hload. reflexivity.
Qed.

(** When it can, the stages run in order; the write is attempted
    according to the truth value of [output_path], and an error of the
    write is not caught. *)
Lemma hdr_night_mode_loaded image_path num_images exposure_step output_path w img :
  disk w !! image_path ≫= imdecode cv = Some img ->
  hdr_night_mode cv image_path num_images exposure_step output_path w =
  match MergeMertens_process cv (generate_exposure_images img num_images exposure_step) with
  | None => (Raise cv2_error, w)
  | Some hdr_image =>
      match contrast_enhancement cv (noise_reduction cv (tone_map hdr_image)) with
      | None => (Raise cv2_error, w)
      | Some final_image =>
          if py_truthy output_path
          then match imencode cv (default "" output_path) final_image with
               | Written bytes =>
                   (Ok (Some final_image), write_file (default "" output_path) bytes w)
               | NotWritten => (Ok (Some final_image), w)
               | NoEncoder => (Raise cv2_error, w)
               end
          else (Ok (Some final_image), w)
      end
  end.
Proof.
  intros Hload.
  unfold hdr_night_mode, try_except_FileNotFoundError.
  unfold mbind at 1. unfold M_bind at 1. unfold bind at 1.
  rewrite load_image_run, Hload.
  destruct (MergeMertens_process cv _) as [hdr_image|]; [|reflexivity].
  cbn [lift_cv2]. unfold mbind, M_bind, bind, mret, M_ret, ret.
  destruct (contrast_enhancement cv _) as [final_image|]; [|reflexivity].
  cbn [lift_cv2]. unfold ret.
  destruct (py_truthy output_path); [|reflexivity].
  rewrite save_image_run.
  destruct (imencode cv (default "" output_path) final_image); reflexivity.
Qed.

End Orchestrator.

(** ** Splitting and merging channel planes *)

Lemma zip3_unzip {A} (l a b : list A) :
  length l = length a -> length l = length b ->
  map (fun p : pixel A => fst (fst p)) (zip3 l a b) = l /\
  map (fun p : pixel A => snd (fst p)) (zip3 l a b) = a /\
  map (fun p : pixel A => snd p) (zip3 l a b) = b.
Proof.
  revert a b. induction l as [|x l IH]; intros [|y a] [|z b] Ha Hb;
    try discriminate; cbn [zip3 map fst snd].
  - auto.
  - injection Ha as Ha. injection Hb as Hb.
    destruct (IH a b Ha Hb) as (H1 & H2 & H3). rewrite H1, H2, H3. auto.
Qed.

Lemma cv2_split_merge {A} (l a b : plane A) :
  shape l = shape a -> shape l = shape b ->
  cv2_split (zip3_rows l a b) = (l, a, b).
Proof.
  unfold cv2_split, shape.
  revert a b. induction l as [|x l IH]; intros [|y a] [|z b] Ha Hb;
    try discriminate; cbn [zip3_rows map] in *.
  - reflexivity.
  - injection Ha as Hxy Ha. injection Hb as Hxz Hb.
    destruct (zip3_unzip x y z Hxy Hxz) as (H1 & H2 & H3).
    specialize (IH a b Ha Hb). injection IH as I1 I2 I3.
    rewrite H1, H2, H3, I1, I2, I3. reflexivity.
Qed.

Lemma cv2_split_shape {A} (img : ndarray A) l a b :
  cv2_split img = (l, a, b) -> shape l = shape a /\ shape l = shape b.
Proof.
  unfold cv2_split, shape. intros H. injection H as <- <- <-.
  rewrite !map_map. split; apply map_ext; intros row; rewrite !length_map; reflexivity.
Qed.

(** C6. [contrast_enhancement] changes the lightness channel only: the
    LAB image it converts back has the [a] and [b] planes of the input's
    LAB conversion unchanged and, as its [L] plane, the
    histogram-equalised [L]. *)
Theorem C6_chrominance_recombined (cv : cv2) (img : image) (l a b : plane Z) :
  cv2_split (cvtColor_BGR2LAB cv img) = (l, a, b) ->
  shape (CLAHE_apply cv (F64.of_Z 2) (8, 8) l) = shape l ->
  exists lab_clahe,
    contrast_enhancement_lab cv img = Some lab_clahe /\
    cv2_split lab_clahe = (CLAHE_apply cv (F64.of_Z 2) (8, 8) l, a, b) /\
    contrast_enhancement cv img = Some (cvtColor_LAB2BGR cv lab_clahe).
Proof.
  intros Hsplit Hshape.
  destruct (cv2_split_shape _ _ _ _ Hsplit) as [Hla Hlb].
  set (l_clahe := CLAHE_apply cv (F64.of_Z 2) (8, 8) l) in *.
  assert (Hmerge : cv2_merge l_clahe a b = Some (zip3_rows l_clahe a b)).
  { unfold cv2_merge. rewrite bool_decide_eq_true_2; [reflexivity|].
    split; congruence. }
  assert (Hlab : contrast_enhancement_lab cv img = Some (zip3_rows l_clahe a b)).
  { unfold contrast_enhancement_lab. rewrite Hsplit. exact Hmerge. }
  exists (zip3_rows l_clahe a b). split; [exact Hlab|]. split.
  - apply cv2_split_merge; congruence.
  - unfold contrast_enhancement. rewrite Hlab. reflexivity.
Qed.

Lemma C6_chrominance_recombined_witness :
  exists lab_clahe,
    contrast_enhancement_lab example_cv2 [[(10, 20, 30); (40, 50, 60)]] = Some lab_clahe /\
    cv2_split lab_clahe =
      (CLAHE_apply example_cv2 (F64.of_Z 2) (8, 8) [[10; 40]], [[20; 50]], [[30; 60]]) /\
    contrast_enhancement example_cv2 [[(10, 20, 30); (40, 50, 60)]] =
      Some (cvtColor_LAB2BGR example_cv2 lab_clahe).
Proof.
  apply (C6_chrominance_recombined example_cv2 [[(10, 20, 30); (40, 50, 60)]]
           [[10; 40]] [[20; 50]] [[30; 60]]).
  - reflexivity.
  - reflexivity.
Defined.

(** C2. When the file at the image path is unreadable or undecodable,
    [hdr_night_mode] catches the load failure, prints the error, returns
    [None] instead of raising and writes no file, whatever the output
    path. *)
Theorem C2_load_failure (cv : cv2) (image_path : string) (num_images : Z)
    (exposure_step : spec_float) (output_path : option string) (w : world) :
  (disk w !! image_path = None \/
   exists bytes, disk w !! image_path = Some bytes /\ imdecode cv bytes = None) ->
  exists w',
    hdr_night_mode cv image_path num_images exposure_step output_path w = (Ok None, w') /\
    stdout w' = stdout w ++ ["Error: Could not load image from " +:+ image_path] /\
    disk w' = disk w.
Proof.
  intros Hfail.
  exists (print_line ("Error: Could not load image from " +:+ image_path) w).
  split; [|split; reflexivity].
  apply hdr_night_mode_not_loaded.
  destruct Hfail as [Hnone | (bytes & Hsome & Hdec)].
  - rewrite Hnone. reflexivity.
  - rewrite Hsome. exact Hdec.
Qed.

Lemma C2_load_failure_witness :
  exists w',
    hdr_night_mode example_cv2 "missing.jpg" 30 default_exposure_step (Some "out.jpg")
      example_world = (Ok None, w') /\
    stdout w' = stdout example_world ++ ["Error: Could not load image from " +:+ "missing.jpg"] /\
    disk w' = disk example_world.
Proof.
  apply (C2_load_failure example_cv2 "missing.jpg" 30 default_exposure_step
           (Some "out.jpg") example_world).
  left. reflexivity.
Defined.

(** C8, as stated, fails: an output path may be supplied without the
    image being written, and without the image being returned.  With a
    path in a directory that does not exist [cv2.imwrite] returns [False],
    which [save_image] drops: the call returns the final image and no file
    is there.  With a file name that has no encoder [cv2.imwrite] raises
    [cv2.error], which the handler does not catch: every stage has
    succeeded and no image is returned.  With the empty string the write
    is not even attempted: the image is returned where the write would
    have raised. *)
Lemma C8_supplied_path_counterexample :
  (hdr_night_mode example_cv2_readonly "dark.jpg" default_num_images default_exposure_step
     (Some "no such directory/out.jpg") example_world
   = (Ok (Some [[(127, 127, 127)]]), example_world) /\
   disk example_world !! "no such directory/out.jpg" = None) /\
  hdr_night_mode example_cv2 "dark.jpg" default_num_images default_exposure_step
    (Some "out.xyz") example_world
  = (Raise cv2_error, example_world) /\
  (hdr_night_mode example_cv2 "dark.jpg" default_num_images default_exposure_step
     (Some "") example_world
   = (Ok (Some [[(127, 127, 127)]]), example_world) /\
   save_image example_cv2 [[(127, 127, 127)]] "" example_world
   = (Raise cv2_error, example_world)).
Proof.
  repeat split; vm_compute; reflexivity.
Qed.

(** C8, amended. Once the stages have succeeded, [hdr_night_mode] calls
    [cv2.imwrite] on the output path exactly when an output path was
    supplied and is not the empty string, and does not check what comes of
    it: if the file is written or [imwrite] returns [False] the final image
    is returned (in the second case with nothing written), and if
    [imwrite] raises [cv2.error] the error leaves the call and no image is
    returned.  With the output path absent or empty nothing is written and
    the final image is returned. *)
Theorem C8_write_when_path_nonempty (cv : cv2) (image_path : string) (num_images : Z)
    (exposure_step : spec_float) (output_path : option string) (w : world)
    (img : image) (hdr_image : ndarray spec_float) (final_image : image) :
  disk w !! image_path ≫= imdecode cv = Some img ->
  MergeMertens_process cv (generate_exposure_images img num_images exposure_step)
    = Some hdr_image ->
  contrast_enhancement cv (noise_reduction cv (tone_map hdr_image)) = Some final_image ->
  hdr_night_mode cv image_path num_images exposure_step output_path w =
  match output_path with
  | None => (Ok (Some final_image), w)
  | Some path =>
      if String.eqb path "" then (Ok (Some final_image), w)
      else
        match imencode cv path final_image with
        | Written bytes => (Ok (Some final_image), write_file path bytes w)
        | NotWritten => (Ok (Some final_image), w)
        | NoEncoder => (Raise cv2_error, w)
        end
  end.
Proof.
  intros Hload Hmerge Hfinal.
  rewrite (hdr_night_mode_loaded cv _ _ _ _ w img Hload), Hmerge, Hfinal.
  destruct output_path as [path|]; cbn [py_truthy default from_option]; [|reflexivity].
  destruct (String.eqb path ""); reflexivity.
Qed.

Lemma C8_write_when_path_nonempty_witness :
  hdr_night_mode example_cv2 "dark.jpg" default_num_images default_exposure_step
    (Some "out.jpg") example_world =
  (if String.eqb "out.jpg" "" then (Ok (Some [[(127, 127, 127)]]), example_world)
   else
     match imencode example_cv2 "out.jpg" [[(127, 127, 127)]] with
     | Written bytes => (Ok (Some [[(127, 127, 127)]]), write_file "out.jpg" bytes example_world)
     | NotWritten => (Ok (Some [[(127, 127, 127)]]), example_world)
     | NoEncoder => (Raise cv2_error, example_world)
     end).
Proof.
  apply (C8_write_when_path_nonempty example_cv2 "dark.jpg" default_num_images
           default_exposure_step (Some "out.jpg") example_world
           [[(10, 20, 30)]]
           [[(S754_finite false 8388608 (-24), S754_finite false 8388608 (-24),
              S754_finite false 8388608 (-24))]]
           [[(127, 127, 127)]]).
  - reflexivity.
  - reflexivity.
  - reflexivity.
Defined.

(** * Further properties of the code *)

(** ** Shapes *)

Lemma shape_ndmap {A B} (f : A -> B) (a : ndarray A) : shape (ndmap f a) = shape a.
Proof.
  unfold shape, ndmap. rewrite map_map. apply map_ext. intros row.
  apply length_map.
Qed.

Lemma ndmap_id {A} (a : ndarray A) : ndmap (fun x => x) a = a.
Proof.
  unfold ndmap. rewrite <- (map_id a) at 2. apply map_ext. intros row.
  rewrite <- (map_id row) at 2. apply map_ext. intros [[b g] r]. reflexivity.
Qed.

(** [increase_exposure] keeps the dimensions of the image: the same
    number of rows and the same length of every row. *)
Theorem increase_exposure_shape (img : image) (factor : spec_float) :
  shape (increase_exposure img factor) = shape img.
Proof.
  unfold increase_exposure, np_mul_f64. rewrite !shape_ndmap. reflexivity.
Qed.

(** Every image of the exposure stack has the dimensions of the source. *)
Theorem generate_exposure_images_shapes (img : image) (N : Z) (s : spec_float) :
  Forall (fun exposed_image => shape exposed_image = shape img)
         (generate_exposure_images img N s).
Proof.
  rewrite generate_exposure_images_map. apply Forall_forall. intros im Him.
  apply list_elem_of_In, in_map_iff in Him. destruct Him as (i & <- & _).
  unfold increase_exposure, np_mul_f64. rewrite !shape_ndmap. reflexivity.
Qed.

(** [tone_map] keeps the dimensions of the composite. *)
Theorem tone_map_shape (hdr_image : ndarray spec_float) :
  shape (tone_map hdr_image) = shape hdr_image.
Proof. unfold tone_map. rewrite !shape_ndmap. reflexivity. Qed.

(** ** The loop, at its edges *)

(** A count of zero or below gives no exposure at all: [range(1, N+1)]
    is empty. *)
Theorem generate_exposure_images_nonpositive (img : image) (N : Z) (s : spec_float) :
  N <= 0 -> generate_exposure_images img N s = [].
Proof.
  intros HN. rewrite generate_exposure_images_map. unfold py_range.
  replace (Z.to_nat (N + 1 - 1)) with 0%nat by lia. reflexivity.
Qed.

Lemma generate_exposure_images_nonpositive_witness :
  generate_exposure_images [[(0, 1, 100)]] (-3) default_exposure_step = [].
Proof.
  apply (generate_exposure_images_nonpositive [[(0, 1, 100)]] (-3) default_exposure_step).
  lia.
Defined.

(** One more exposure extends the stack at its end and leaves the earlier
    images as they were. *)
Theorem generate_exposure_images_succ (img : image) (N : Z) (s : spec_float) :
  0 <= N ->
  generate_exposure_images img (N + 1) s =
  generate_exposure_images img N s ++ [increase_exposure img (exposure_factor (N + 1) s)].
Proof.
  intros HN. rewrite !generate_exposure_images_map. unfold py_range.
  replace (Z.to_nat (N + 1 + 1 - 1)) with (S (Z.to_nat N)) by lia.
  replace (Z.to_nat (N + 1 - 1)) with (Z.to_nat N) by lia.
  rewrite seq_S, !map_app. cbn [map].
  replace (1 + Z.of_nat (0 + Z.to_nat N)) with (N + 1) by lia. reflexivity.
Qed.

Lemma generate_exposure_images_succ_witness :
  generate_exposure_images [[(0, 1, 100)]] (2 + 1) default_exposure_step =
  generate_exposure_images [[(0, 1, 100)]] 2 default_exposure_step
    ++ [increase_exposure [[(0, 1, 100)]] (exposure_factor (2 + 1) default_exposure_step)].
Proof.
  apply (generate_exposure_images_succ [[(0, 1, 100)]] 2 default_exposure_step). lia.
Defined.

(** ** Exposure by particular factors *)

Lemma exposed_one_table :
  forallb (fun v => exposed v (F64.of_Z 1) =? v) (py_range 0 256) = true.
Proof. vm_compute. reflexivity. Qed.

Lemma exposed_one v : is_uint8 v -> exposed v (F64.of_Z 1) = v.
Proof.
  intros [H0 H255]. apply Z.eqb_eq.
  apply (proj1 (forallb_forall _ _) exposed_one_table).
  unfold py_range. apply in_map_iff. exists (Z.to_nat v). split; [lia|].
  apply in_seq. lia.
Qed.

Lemma increase_exposure_one (img : image) :
  valid_image img -> increase_exposure img (F64.of_Z 1) = img.
Proof.
  intros Himg. rewrite increase_exposure_pointwise.
  rewrite (ndmap_ext_all is_uint8 _ (fun v => v)); [apply ndmap_id | | exact Himg].
  intros v Hv. apply exposed_one; exact Hv.
Qed.

Lemma increase_exposure_ge_source (img : image) (factor : spec_float) :
  valid_image img -> F64.valid factor = true ->
  SFleb (F64.of_Z 1) factor = true ->
  nd_rel Z.le img (increase_exposure img factor).
Proof.
  intros Himg Vf Hf.
  pose proof (increase_exposure_le img (F64.of_Z 1) factor Himg
                (F64_of_Z_valid 1) Vf) as H.
  rewrite increase_exposure_one in H by exact Himg.
  apply H; [rewrite F64_of_Z_1; reflexivity | exact Hf].
Qed.

(** A factor of exactly 1 leaves a valid 8-bit image unchanged. *)
Theorem increase_exposure_factor_one (img : image) :
  valid_image img -> increase_exposure img (F64.of_Z 1) = img.
Proof. apply increase_exposure_one. Qed.

Lemma increase_exposure_factor_one_witness :
  increase_exposure [[(0, 1, 100); (200, 255, 7)]] (F64.of_Z 1)
  = [[(0, 1, 100); (200, 255, 7)]].
Proof.
  apply (increase_exposure_factor_one [[(0, 1, 100); (200, 255, 7)]]).
  repeat constructor; unfold is_uint8; lia.
Defined.

(** A factor of 1 or more never darkens: every channel of the result is
    at least the channel of the source (so a channel at 255 stays 255). *)
Theorem increase_exposure_never_darkens (img : image) (factor : spec_float) :
  valid_image img -> F64.valid factor = true ->
  SFleb (F64.of_Z 1) factor = true ->
  nd_rel Z.le img (increase_exposure img factor).
Proof. apply increase_exposure_ge_source. Qed.

Lemma increase_exposure_never_darkens_witness :
  nd_rel Z.le [[(0, 1, 100); (200, 255, 7)]]
    (increase_exposure [[(0, 1, 100); (200, 255, 7)]]
       (exposure_factor 3 default_exposure_step)).
Proof.
  apply (increase_exposure_never_darkens [[(0, 1, 100); (200, 255, 7)]]
           (exposure_factor 3 default_exposure_step)).
  - repeat constructor; unfold is_uint8; lia.
  - reflexivity.
  - reflexivity.
Defined.

Lemma F64_of_Z_uint8 v :
  is_uint8 v -> is_nonneg (F64.of_Z v) = true /\ is_finite (F64.of_Z v) = true.
Proof.
  intros [H0 H255]. destruct (Z.eq_dec v 0) as [->|Hne]; [split; reflexivity|].
  pose proof (F64_of_Z_pos v ltac:(lia)) as Pv.
  assert (Hle : SFleb (F64.of_Z v) (F64.of_Z 255) = true).
  { apply (of_Z_mono F64.prec F64.emax F64_prec_pos F64_prec_emax); lia. }
  rewrite F64_of_Z_255 in Hle.
  destruct (F64.of_Z v) as [s|[]| |[] m e]; try discriminate; split; reflexivity.
Qed.

Lemma pack_true_nonpos prec emax qe :
  0 <= fst qe -> is_nonpos (pack prec emax true qe) = true.
Proof.
  unfold pack. destruct qe as [[|p|p] E]; cbn [fst snd]; intros; try lia; try reflexivity.
  destruct (E <=? emax - prec); reflexivity.
Qed.

(** A number that is not negative times one that is not positive is not
    positive. *)
Lemma F64_mul_nonneg_nonpos x y :
  F64.valid x = true -> F64.valid y = true ->
  is_nonneg x = true -> is_finite x = true ->
  is_nonpos y = true -> is_finite y = true ->
  is_nonpos (F64.mul x y) = true.
Proof.
  intros Vx Vy Nx Fx Ny Fy.
  destruct x as [sx|[]| |[] mx ex]; try discriminate;
  destruct y as [sy|[]| |[] my ey]; try discriminate; try reflexivity.
  unfold F64.mul. cbn [SFmul xorb].
  rewrite (bra_spec F64.prec F64.emax F64_prec_pos); [|lia|].
  - apply pack_true_nonpos.
    apply (round_me_props F64.prec F64.emax F64_prec_pos); [lia|].
    apply (mul_precondition F64.prec F64.emax F64_prec_pos F64_prec_emax); assumption.
  - apply (mul_precondition F64.prec F64.emax F64_prec_pos F64_prec_emax); assumption.
Qed.

Lemma clip_nonpos x mh eh :
  is_nonpos x = true ->
  astype_uint8 (np_clip x (S754_zero false) (S754_finite false mh eh)) = 0.
Proof.
  destruct x as [s|[]| |[] m e]; intros Hx; try discriminate; reflexivity.
Qed.

Lemma exposed_nonpos v factor :
  is_uint8 v -> F64.valid factor = true ->
  is_nonpos factor = true -> is_finite factor = true ->
  exposed v factor = 0.
Proof.
  intros Hv Vf Nf Ff. destruct (F64_of_Z_uint8 v Hv) as [Nv Fv].
  unfold exposed. rewrite F64_of_Z_0, F64_of_Z_255.
  apply clip_nonpos, F64_mul_nonneg_nonpos; try assumption.
  apply F64_of_Z_valid.
Qed.

(** A factor of zero or below (and finite) blacks the image out: every
    channel of the result is 0. *)
Theorem increase_exposure_nonpositive_factor (img : image) (factor : spec_float) :
  valid_image img -> F64.valid factor = true ->
  is_nonpos factor = true -> is_finite factor = true ->
  increase_exposure img factor = ndmap (fun _ => 0) img.
Proof.
  intros Himg Vf Nf Ff. rewrite increase_exposure_pointwise.
  apply (ndmap_ext_all is_uint8); [|exact Himg].
  intros v Hv. apply exposed_nonpos; assumption.
Qed.

Lemma increase_exposure_nonpositive_factor_witness :
  increase_exposure [[(0, 1, 100); (200, 255, 7)]] (S754_finite true 6755399441055744 (-51))
  = ndmap (fun _ => 0) [[(0, 1, 100); (200, 255, 7)]].
Proof.
  apply (increase_exposure_nonpositive_factor [[(0, 1, 100); (200, 255, 7)]]
           (S754_finite true 6755399441055744 (-51))).
  - repeat constructor; unfold is_uint8; lia.
  - reflexivity.
  - reflexivity.
  - reflexivity.
Defined.

(** ** The exposure stack as a whole *)

(** With a positive step no image of the stack is darker than the source
    in any channel. *)
Theorem generate_exposure_images_ge_source (img : image) (N : Z) (s : spec_float) :
  valid_image img -> F64.valid s = true ->
  SFltb (F64.of_Z 0) s = true ->
  Forall (fun exposed_image => nd_rel Z.le img exposed_image)
         (generate_exposure_images img N s).
Proof.
  intros Himg Vs Hs.
  assert (Ps : is_pos s = true) by (apply SFltb_zero_pos; rewrite <- F64_of_Z_0; exact Hs).
  rewrite generate_exposure_images_map. apply Forall_forall. intros im Him.
  apply list_elem_of_In, in_map_iff in Him. destruct Him as (i & <- & Hi).
  unfold py_range in Hi. apply in_map_iff in Hi. destruct Hi as (k & <- & _).
  destruct (exposure_factor_props (1 + Z.of_nat k) s ltac:(lia) Vs Ps) as (Vf & Gf & _).
  apply increase_exposure_ge_source; assumption.
Qed.

Lemma generate_exposure_images_ge_source_witness :
  Forall (fun exposed_image => nd_rel Z.le [[(0, 1, 100); (200, 255, 7)]] exposed_image)
         (generate_exposure_images [[(0, 1, 100); (200, 255, 7)]] 3 default_exposure_step).
Proof.
  apply (generate_exposure_images_ge_source [[(0, 1, 100); (200, 255, 7)]] 3
           default_exposure_step).
  - repeat constructor; unfold is_uint8; lia.
  - reflexivity.
  - reflexivity.
Defined.

(** The stack is ordered by brightness: with a positive step, any later
    image is, channel by channel, at least any earlier one. *)
Theorem generate_exposure_images_ordered (img : image) (N : Z) (s : spec_float) (i j : Z) :
  valid_image img -> F64.valid s = true ->
  SFltb (F64.of_Z 0) s = true ->
  1 <= i -> i <= j -> j <= N ->
  exists earlier later,
    generate_exposure_images img N s !! Z.to_nat (i - 1) = Some earlier /\
    generate_exposure_images img N s !! Z.to_nat (j - 1) = Some later /\
    nd_rel Z.le earlier later.
Proof.
  intros Himg Vs Hs Hi Hij HjN.
  assert (Ps : is_pos s = true) by (apply SFltb_zero_pos; rewrite <- F64_of_Z_0; exact Hs).
  exists (increase_exposure img (exposure_factor i s)),
         (increase_exposure img (exposure_factor j s)).
  split; [apply generate_exposure_images_lookup; lia|].
  split; [apply generate_exposure_images_lookup; lia|].
  destruct (exposure_factor_props i s Hi Vs Ps) as (V1 & _ & P1).
  destruct (exposure_factor_props j s ltac:(lia) Vs Ps) as (V2 & _ & _).
  apply increase_exposure_le; try assumption.
  apply exposure_factor_mono; assumption.
Qed.

Lemma generate_exposure_images_ordered_witness :
  exists earlier later,
    generate_exposure_images [[(0, 1, 100); (200, 255, 7)]] 30 default_exposure_step
      !! Z.to_nat (2 - 1) = Some earlier /\
    generate_exposure_images [[(0, 1, 100); (200, 255, 7)]] 30 default_exposure_step
      !! Z.to_nat (17 - 1) = Some later /\
    nd_rel Z.le earlier later.
Proof.
  apply (generate_exposure_images_ordered [[(0, 1, 100); (200, 255, 7)]] 30
           default_exposure_step 2 17).
  - repeat constructor; unfold is_uint8; lia.
  - reflexivity.
  - reflexivity.
  - lia.
  - lia.
  - lia.
Defined.

(** ** Tone mapping *)

Lemma tone_map_pointwise (hdr_image : ndarray spec_float) :
  tone_map hdr_image = ndmap toned hdr_image.
Proof. unfold tone_map. rewrite !ndmap_ndmap. reflexivity. Qed.


Lemma SFleb_nonneg_l x y : is_nonneg x = true -> SFleb x y = true -> is_nonneg y = true.
Proof.
  destruct x as [s|[]| |[] m e]; simpl; intros Hx; try discriminate;
  destruct y as [s'|[]| |[] m' e']; simpl; intros; try discriminate; reflexivity.
Qed.

Lemma toned_range x : F32.valid x = true -> 0 <= toned x <= 255.
Proof.
  intros Vx. unfold toned. apply clip_cast_f32, F32_mul_valid; [exact Vx|].
  rewrite F32_of_Z_255. reflexivity.
Qed.

Lemma toned_nonpos x : is_nonpos x = true -> toned x = 0.
Proof.
  intros Hx. unfold toned. rewrite F32_of_Z_0, F32_of_Z_255.
  destruct x as [s|[]| |[] m e]; try discriminate; try reflexivity.
  (* a negative number times 255: the sign of the rounded product *)
  unfold F32.mul. cbn [SFmul xorb].
  destruct (binary_round_aux F32.prec F32.emax true _ _ _) as [s|[]| |[] m' e'] eqn:Hr;
    try reflexivity; exfalso.
  - unfold binary_round_aux in Hr.
    destruct (shr_fexp _ _ _ _ _) as [mrs' e1]. destruct (shr_fexp _ _ _ e1 _) as [mrs'' e2].
    destruct (shr_m mrs''); try discriminate. destruct (e2 <=? _); discriminate.
  - unfold binary_round_aux in Hr.
    destruct (shr_fexp _ _ _ _ _) as [mrs' e1]. destruct (shr_fexp _ _ _ e1 _) as [mrs'' e2].
    destruct (shr_m mrs''); try discriminate. destruct (e2 <=? _); discriminate.
Qed.



Lemma toned_mono x y :
  F32.valid x = true -> F32.valid y = true ->
  is_nonneg x = true -> SFleb x y = true ->
  toned x <= toned y.
Proof.
  intros Vx Vy Nx Hxy.
  destruct (is_pos x) eqn:Px.
  - pose proof (SFleb_pos_l _ _ Px Hxy) as Py.
    unfold toned. rewrite F32_of_Z_0, F32_of_Z_255.
    set (h := S754_finite false 16711680 (-16)).
    assert (Vh : F32.valid h = true) by reflexivity.
    assert (Ph : is_pos h = true) by reflexivity.
    assert (Hm : SFleb (F32.mul x h) (F32.mul y h) = true).
    { apply (mul_mono F32.prec F32.emax F32_prec_pos F32_prec_emax);
        try assumption; reflexivity. }
    pose proof (F32_mul_valid _ _ Vx Vh) as Vm1.
    pose proof (F32_mul_valid _ _ Vy Vh) as Vm2.
    pose proof (mul_nonneg F32.prec F32.emax F32_prec_pos F32_prec_emax _ _ Vx Vh Px Ph) as N1.
    pose proof (mul_nonneg F32.prec F32.emax F32_prec_pos F32_prec_emax _ _ Vy Vh Py Ph) as N2.
    destruct (clip_trunc_mono F32.prec F32.emax F32_prec_pos _ _ F32_255_bounded
                _ _ Vm1 Vm2 N1 N2 Hm) as (z1 & z2 & H1 & H2 & Hz).
    destruct (clip_trunc_range F32.prec F32.emax F32_prec_pos _ _ F32_255_bounded
                (F32.mul y h) Vm2) as (z2' & H2' & Hr).
    { destruct (F32.mul y h) as [s|[]| |[] m e]; try discriminate; reflexivity. }
    rewrite F32_255_trunc in Hr.
    unfold astype_uint8. fold F32.mul in *. fold h in H1, H2, H2'.
    rewrite H1, H2.
    assert (z2' = z2) by congruence. subst z2'.
    rewrite !Z.mod_small by lia. lia.
  - assert (Hx0 : toned x = 0).
    { apply toned_nonpos. destruct x as [s|[]| |[] m e]; try discriminate; reflexivity. }
    rewrite Hx0. apply toned_range; exact Vy.
Qed.

Lemma nd_rel_ndmap2 {A B C D} (R : A -> B -> Prop) (S : C -> D -> Prop)
    (f : A -> C) (g : B -> D) (a : ndarray A) (b : ndarray B) :
  (forall x y, R x y -> S (f x) (g y)) ->
  nd_rel R a b -> nd_rel S (ndmap f a) (ndmap g b).
Proof.
  intros HRS Hab. unfold nd_rel, ndmap in *.
  induction Hab as [|ra rb a' b' Hrow _ IH]; cbn [map]; constructor; [|exact IH].
  induction Hrow as [|p q ra' rb' Hpq _ IHr]; cbn [map]; constructor; [|exact IHr].
  destruct p as [[p1 p2] p3], q as [[q1 q2] q3]. destruct Hpq as (H1 & H2 & H3).
  repeat split; apply HRS; assumption.
Qed.





(** Tone mapping keeps the order of brightness: where one composite is,
    value by value, non-negative and at most another, its 8-bit image is
    at most the other's. *)
Theorem tone_map_monotone (hdr1 hdr2 : ndarray spec_float) :
  nd_rel (fun x y => F32.valid x = true /\ F32.valid y = true /\
                     is_nonneg x = true /\ SFleb x y = true) hdr1 hdr2 ->
  nd_rel Z.le (tone_map hdr1) (tone_map hdr2).
Proof.
  intros H. rewrite !tone_map_pointwise.
  eapply nd_rel_ndmap2; [|exact H].
  intros x y (Vx & Vy & Nx & Hxy). apply toned_mono; assumption.
Qed.

Lemma tone_map_monotone_witness :
  nd_rel Z.le
    (tone_map [[(S754_zero false, S754_finite false 8388608 (-24),
                 S754_finite false 8388608 (-23))]])
    (tone_map [[(S754_finite false 8388608 (-24), S754_finite false 12582912 (-24),
                 S754_infinity false)]]).
Proof.
  apply (tone_map_monotone
    [[(S754_zero false, S754_finite false 8388608 (-24), S754_finite false 8388608 (-23))]]
    [[(S754_finite false 8388608 (-24), S754_finite false 12582912 (-24),
       S754_infinity false)]]).
  repeat constructor.
Defined.

(** ** Saving and loading *)

(** What [save_image] wrote, [load_image] reads back: with a codec that
    decodes what it encoded, saving an image and loading the same path
    returns that image. *)
Theorem save_image_load_image (cv : cv2) (img : image) (path : string)
    (bytes : list Byte.byte) (w : world) :
  imencode cv path img = Written bytes ->
  imdecode cv bytes = Some img ->
  (save_image cv img path;; load_image cv path) w = (Ok img, write_file path bytes w).
Proof.
  intros Henc Hdec. unfold mbind at 1. unfold M_bind, bind.
  rewrite save_image_run, Henc, load_image_run.
  cbn [write_file disk]. rewrite lookup_insert_eq. cbn [mbind option_bind].
  rewrite Hdec. reflexivity.
Qed.

Lemma save_image_load_image_witness :
  (save_image example_cv2 [[(10, 20, 30)]] "out.jpg";; load_image example_cv2 "out.jpg")
    example_world
  = (Ok [[(10, 20, 30)]], write_file "out.jpg" [Byte.x2a] example_world).
Proof.
  apply (save_image_load_image example_cv2 [[(10, 20, 30)]] "out.jpg" [Byte.x2a]
           example_world).
  - reflexivity.
  - reflexivity.
Defined.

(** [save_image] touches one path only: loading any other path gives
    what it gave before the save. *)
Theorem save_image_other_path (cv : cv2) (img : image) (path other : string) (w : world) :
  other <> path ->
  fst (load_image cv other (snd (save_image cv img path w))) = fst (load_image cv other w).
Proof.
  intros Hne. rewrite save_image_run, !load_image_run.
  destruct (imencode cv path img) as [bytes| |]; try reflexivity.
  cbn [snd write_file disk]. rewrite lookup_insert_ne by congruence.
  destruct (disk w !! other ≫= imdecode cv); reflexivity.
Qed.

Lemma save_image_other_path_witness :
  fst (load_image example_cv2 "dark.jpg"
         (snd (save_image example_cv2 [[(1, 2, 3)]] "out.jpg" example_world)))
  = fst (load_image example_cv2 "dark.jpg" example_world).
Proof.
  apply (save_image_other_path example_cv2 [[(1, 2, 3)]] "out.jpg" "dark.jpg" example_world).
  discriminate.
Defined.

(** ** Failures of the later stages *)

(** Only the load failure is handled.  When the file loads and the fusion
    or the contrast stage raises, [hdr_night_mode] raises [cv2.error]
    itself: nothing is returned, printed or written. *)
Theorem hdr_night_mode_stage_failure (cv : cv2) (image_path : string) (num_images : Z)
    (exposure_step : spec_float) (output_path : option string) (w : world) (img : image) :
  disk w !! image_path ≫= imdecode cv = Some img ->
  (MergeMertens_process cv (generate_exposure_images img num_images exposure_step) = None \/
   exists hdr_image,
     MergeMertens_process cv (generate_exposure_images img num_images exposure_step)
       = Some hdr_image /\
     contrast_enhancement cv (noise_reduction cv (tone_map hdr_image)) = None) ->
  hdr_night_mode cv image_path num_images exposure_step output_path w = (Raise cv2_error, w).
Proof.
  intros Hload Hfail. rewrite (hdr_night_mode_loaded cv _ _ _ _ w img Hload).
  destruct Hfail as [Hm | (hdr_image & Hm & Hc)]; rewrite Hm; [reflexivity|].
  rewrite Hc. reflexivity.
Qed.

Lemma hdr_night_mode_stage_failure_witness :
  hdr_night_mode example_cv2 "dark.jpg" 0 default_exposure_step (Some "out.jpg") example_world
  = (Raise cv2_error, example_world).
Proof.
  apply (hdr_night_mode_stage_failure example_cv2 "dark.jpg" 0 default_exposure_step
           (Some "out.jpg") example_world [[(10, 20, 30)]]).
  - reflexivity.
  - left. reflexivity.
Defined.

(** A count of zero or below hands the fusion an empty stack; with a
    fusion that refuses it (OpenCV asserts a non-empty input) the call
    ends in [cv2.error] instead of a result. *)
Theorem hdr_night_mode_no_exposures (cv : cv2) (image_path : string) (num_images : Z)
    (exposure_step : spec_float) (output_path : option string) (w : world) (img : image) :
  disk w !! image_path ≫= imdecode cv = Some img ->
  num_images <= 0 ->
  MergeMertens_process cv [] = None ->
  hdr_night_mode cv image_path num_images exposure_step output_path w = (Raise cv2_error, w).
Proof.
  intros Hload HN Hempty. rewrite (hdr_night_mode_loaded cv _ _ _ _ w img Hload).
  rewrite generate_exposure_images_map. unfold py_range.
  replace (Z.to_nat (num_images + 1 - 1)) with 0%nat by lia.
  cbn [seq map]. rewrite Hempty. reflexivity.
Qed.

Lemma hdr_night_mode_no_exposures_witness :
  hdr_night_mode example_cv2 "dark.jpg" (-1) default_exposure_step None example_world
  = (Raise cv2_error, example_world).
Proof.
  apply (hdr_night_mode_no_exposures example_cv2 "dark.jpg" (-1) default_exposure_step
           None example_world [[(10, 20, 30)]]).
  - reflexivity.
  - lia.
  - reflexivity.
Defined.

(** A [FileNotFoundError] never leaves [hdr_night_mode]: whatever the
    world and the arguments, the call returns or raises [cv2.error]. *)
Theorem hdr_night_mode_no_FileNotFoundError (cv : cv2) (image_path : string)
    (num_images : Z) (exposure_step : spec_float) (output_path : option string)
    (w : world) (msg : string) :
  fst (hdr_night_mode cv image_path num_images exposure_step output_path w)
  <> Raise (FileNotFoundError msg).
Proof.
  destruct (disk w !! image_path ≫= imdecode cv) as [img|] eqn:Hload.
  - rewrite (hdr_night_mode_loaded cv _ _ _ _ w img Hload).
    destruct (MergeMertens_process cv _); [|discriminate].
    destruct (contrast_enhancement cv _); [|discriminate].
    destruct (py_truthy output_path); [|discriminate].
    destruct (imencode cv _ _); discriminate.
  - rewrite (hdr_night_mode_not_loaded cv _ _ _ _ w Hload). discriminate.
Qed.

(** A failed write goes unnoticed: when [cv2.imwrite] writes nothing the
    final image is returned all the same and the world is as before. *)
Theorem hdr_night_mode_write_failure (cv : cv2) (image_path : string) (num_images : Z)
    (exposure_step : spec_float) (path : string) (w : world)
    (img : image) (hdr_image : ndarray spec_float) (final_image : image) :
  disk w !! image_path ≫= imdecode cv = Some img ->
  MergeMertens_process cv (generate_exposure_images img num_images exposure_step)
    = Some hdr_image ->
  contrast_enhancement cv (noise_reduction cv (tone_map hdr_image)) = Some final_image ->
  imencode cv path final_image = NotWritten ->
  hdr_night_mode cv image_path num_images exposure_step (Some path) w
  = (Ok (Some final_image), w).
Proof.
  intros Hload Hmerge Hfinal Henc.
  rewrite (hdr_night_mode_loaded cv _ _ _ _ w img Hload), Hmerge, Hfinal.
  destruct (py_truthy (Some path)); [|reflexivity].
  cbn [default from_option]. unfold id. rewrite Henc. reflexivity.
Qed.

Lemma hdr_night_mode_write_failure_witness :
  hdr_night_mode example_cv2_readonly "dark.jpg" default_num_images default_exposure_step
    (Some "no such directory/out.jpg") example_world
  = (Ok (Some [[(127, 127, 127)]]), example_world).
Proof.
  apply (hdr_night_mode_write_failure example_cv2_readonly "dark.jpg" default_num_images
           default_exposure_step "no such directory/out.jpg" example_world
           [[(10, 20, 30)]]
           [[(S754_finite false 8388608 (-24), S754_finite false 8388608 (-24),
              S754_finite false 8388608 (-24))]]
           [[(127, 127, 127)]]).
  - reflexivity.
  - reflexivity.
  - reflexivity.
  - reflexivity.
Defined.

(** ** What a run leaves alone *)

Lemma hdr_night_mode_world (cv : cv2) (image_path : string) (num_images : Z)
    (exposure_step : spec_float) (output_path : option string) (w : world) :
  let w' := snd (hdr_night_mode cv image_path num_images exposure_step output_path w) in
  w' = w \/
  w' = print_line ("Error: Could not load image from " +:+ image_path) w \/
  exists path bytes, output_path = Some path /\ w' = write_file path bytes w.
Proof.
  cbv zeta.
  destruct (disk w !! image_path ≫= imdecode cv) as [img|] eqn:Hload.
  - rewrite (hdr_night_mode_loaded cv _ _ _ _ w img Hload).
    destruct (MergeMertens_process cv _); [|left; reflexivity].
    destruct (contrast_enhancement cv _) as [final_image|]; [|left; reflexivity].
    destruct output_path as [path|]; cbn [py_truthy]; [|left; reflexivity].
    destruct (negb (String.eqb path "")); [|left; reflexivity].
    cbn [default from_option]. unfold id.
    destruct (imencode cv path final_image) as [bytes| |]; try (left; reflexivity).
    right. right. exists path, bytes. split; reflexivity.
  - rewrite (hdr_night_mode_not_loaded cv _ _ _ _ w Hload). right. left. reflexivity.
Qed.

(** A run writes to the output path and nowhere else: every other file
    is after the run what it was before. *)
Theorem hdr_night_mode_other_files (cv : cv2) (image_path : string) (num_images : Z)
    (exposure_step : spec_float) (output_path : option string) (w : world)
    (other : string) :
  output_path <> Some other ->
  disk (snd (hdr_night_mode cv image_path num_images exposure_step output_path w)) !! other
  = disk w !! other.
Proof.
  intros Hne.
  destruct (hdr_night_mode_world cv image_path num_images exposure_step output_path w)
    as [-> | [-> | (path & bytes & Hout & ->)]]; try reflexivity.
  cbn [write_file disk]. apply lookup_insert_ne. congruence.
Qed.

Lemma hdr_night_mode_other_files_witness :
  disk (snd (hdr_night_mode example_cv2 "dark.jpg" default_num_images default_exposure_step
               (Some "out.jpg") example_world)) !! "dark.jpg"
  = disk example_world !! "dark.jpg".
Proof.
  apply (hdr_night_mode_other_files example_cv2 "dark.jpg" default_num_images
           default_exposure_step (Some "out.jpg") example_world "dark.jpg").
  discriminate.
Defined.

(** A run prints only when the file cannot be loaded: once the image is
    loaded, standard output is left as it was, whether the later stages
    succeed or raise. *)
Theorem hdr_night_mode_silent_when_loaded (cv : cv2) (image_path : string)
    (num_images : Z) (exposure_step : spec_float) (output_path : option string)
    (w : world) (img : image) :
  disk w !! image_path ≫= imdecode cv = Some img ->
  stdout (snd (hdr_night_mode cv image_path num_images exposure_step output_path w))
  = stdout w.
Proof.
  intros Hload. rewrite (hdr_night_mode_loaded cv _ _ _ _ w img Hload).
  destruct (MergeMertens_process cv _); [|reflexivity].
  destruct (contrast_enhancement cv _) as [final_image|]; [|reflexivity].
  destruct (py_truthy output_path); [|reflexivity].
  destruct (imencode cv _ final_image); reflexivity.
Qed.

Lemma hdr_night_mode_silent_when_loaded_witness :
  stdout (snd (hdr_night_mode example_cv2 "dark.jpg" default_num_images
                 default_exposure_step (Some "out.jpg") example_world))
  = stdout example_world.
Proof.
  apply (hdr_night_mode_silent_when_loaded example_cv2 "dark.jpg" default_num_images
           default_exposure_step (Some "out.jpg") example_world [[(10, 20, 30)]]).
  reflexivity.
Defined.


